(** * sa-builder: the SSH/git front of the builder, embedded in Rocq

  A shallow embedding of the pure and the state-passing parts of
  [pkg/sshd/sshd.go], [pkg/git/git.go], [pkg/gitreceive/run.go] and
  [pkg/gitreceive/storage/slug_builder_info.go].

  Go strings are byte sequences: they are modelled as [list ascii].
  The file system touched by [createRepo] is a finite map from paths to
  nodes. *)

From Stdlib Require Import ZArith Ascii String List Lia Bool.
From Stdlib.Strings Require Byte.
From stdpp Require Import gmap strings list.

Local Open Scope list_scope.

(** ** Go strings *)

Abbreviation gostring := (list ascii).

(** A byte of a [[]byte]. *)
Abbreviation byte := Init.Byte.byte.

(** A string literal of the source. *)
Definition str (s : string) : gostring := list_ascii_of_string s.

(** ** Package [strings] of the Go library, as far as the code uses it *)

Module strings.

(** [func HasPrefix(s, prefix string) bool]:
    [len(s) >= len(prefix) && s[0:len(prefix)] == prefix]. *)
Definition HasPrefix (s prefix : gostring) : bool :=
  (length prefix <=? length s)%nat
  && bool_decide (firstn (length prefix) s = prefix).

(** [func HasSuffix(s, suffix string) bool]:
    [len(s) >= len(suffix) && s[len(s)-len(suffix):] == suffix]. *)
Definition HasSuffix (s suffix : gostring) : bool :=
  (length suffix <=? length s)%nat
  && bool_decide (skipn (length s - length suffix) s = suffix).

(** [func TrimPrefix(s, prefix string) string]. *)
Definition TrimPrefix (s prefix : gostring) : gostring :=
  if HasPrefix s prefix then skipn (length prefix) s else s.

(** [func TrimSuffix(s, suffix string) string]. *)
Definition TrimSuffix (s suffix : gostring) : gostring :=
  if HasSuffix s suffix then firstn (length s - length suffix) s else s.

(** [func Contains(s, substr string) bool]: [Index(s, substr) >= 0], a
    scan for the first position at which [substr] starts. *)
Fixpoint Contains (s substr : gostring) : bool :=
  HasPrefix s substr
  || match s with
     | [] => false
     | _ :: s' => Contains s' substr
     end.

(** The scan of [Replace] and [Split] for a non-empty pattern: [skip]
    counts the bytes of the match just found that are still to be
    passed over, so that matches do not overlap. *)
Fixpoint replace_from (old new : gostring) (skip : nat) (s : gostring)
  : gostring :=
  match s with
  | [] => []
  | c :: s' =>
      match skip with
      | S k => replace_from old new k s'
      | O =>
          if HasPrefix s old
          then new ++ replace_from old new (length old - 1) s'
          else c :: replace_from old new 0 s'
      end
  end.

(** [func Replace(s, old, new string, n int) string] with [n < 0]: every
    non-overlapping occurrence, left to right.  With an empty [old] the
    library inserts [new] before every byte and at the end. *)
Definition ReplaceAll (s old new : gostring) : gostring :=
  match old with
  | [] => new ++ flat_map (fun c => c :: new) s
  | _ :: _ => replace_from old new 0 s
  end.

(** The scan of [Split] for a non-empty separator: [cur] is the token
    being read, in reverse. *)
Fixpoint split_from (sep : gostring) (skip : nat) (cur : gostring)
  (s : gostring) : list gostring :=
  match s with
  | [] => [rev cur]
  | c :: s' =>
      match skip with
      | S k => split_from sep k cur s'
      | O =>
          if HasPrefix s sep
          then rev cur :: split_from sep (length sep - 1) [] s'
          else split_from sep 0 (c :: cur) s'
      end
  end.

(** [func Split(s, sep string) []string].  With an empty separator the
    library explodes the string into its characters. *)
Definition Split (s sep : gostring) : list gostring :=
  match sep with
  | [] => map (fun c => [c]) s
  | _ :: _ => split_from sep 0 [] s
  end.

(** [func Join(a []string, sep string) string]. *)
Fixpoint Join (a : list gostring) (sep : gostring) : gostring :=
  match a with
  | [] => []
  | [x] => x
  | x :: rest => x ++ sep ++ Join rest sep
  end.

End strings.

(** ** Results of fallible functions

  A Go function returning [(T, error)] either yields a value with a nil
  error, or an error carrying its message. *)

Inductive result (A : Type) : Type :=
| Ok (a : A)
| Err (msg : gostring).
Arguments Ok {A} a.
Arguments Err {A} msg.

Definition is_err {A} (r : result A) : bool :=
match r with Ok _ => false | Err _ => true end.

(** ** Package [fmt]: the verb the code uses

    [Sprintf] and [Errorf] are only ever called with the verb [%s] and with
    as many operands as verbs.  An operand is the text [%s] prints for it:
    a string itself, the contents of a byte slice, the message of an
    error.  A verb without operand prints as the library does. *)

Module fmt.

Fixpoint Sprintf (format : gostring) (args : list gostring) : gostring :=
  match format with
  | [] => []
  | c :: rest =>
      match rest with
      | v :: rest' =>
          if ((c =? "%")%char && (v =? "s")%char)%bool
          then match args with
               | a :: args' => a ++ Sprintf rest' args'
               | [] => str "%!s(MISSING)" ++ Sprintf rest' []
               end
          else c :: Sprintf rest args
      | [] => [c]
      end
  end.

(** [Errorf] builds the error whose message is the formatted text. *)
Definition Errorf {A} (format : gostring) (args : list gostring) : result A :=
  Err (Sprintf format args).

End fmt.

(** ** Package [crypto/subtle] of the Go library *)

Module subtle.

(** A byte as the number a [uint8] holds. *)
Definition byte_val (b : byte) : Z := Z.of_N (Byte.to_N b).

(** [func ConstantTimeByteEq(x, y uint8) int]:
    [int((uint32(x^y) - 1) >> 31)], the subtraction wrapping at 32 bits. *)
Definition ConstantTimeByteEq (x y : Z) : Z :=
  Z.shiftr ((Z.lxor x y - 1) mod 2 ^ 32) 31.

(** The loop [for i := 0; i < len(x); i++ { v |= x[i] ^ y[i] }] over two
    slices of one length; [v] is a [byte]. *)
Fixpoint accumulate (v : Z) (x y : list byte) : Z :=
  match x, y with
  | a :: x', b :: y' =>
      accumulate (Z.lor v (Z.lxor (byte_val a) (byte_val b)) mod 2 ^ 8) x' y'
  | _, _ => v
  end.

(** [func ConstantTimeCompare(x, y []byte) int]. *)
Definition ConstantTimeCompare (x y : list byte) : Z :=
  if negb (length x =? length y)%nat then 0
  else ConstantTimeByteEq (accumulate 0 x y) 0.

End subtle.

(** ** [pkg/sshd/sshd.go] *)

Module sshd.

(** [ssh.PublicKey], an interface of [golang.org/x/crypto/ssh]: the code
    calls its methods [Type()] and [Marshal()] only. *)
Record PublicKey : Type := mkPublicKey {
  Type_ : gostring;
  Marshal : list byte
}.

(** [ssh.Permissions]; only [Extensions] is set. *)
Record Permissions : Type := mkPermissions {
  Extensions : gmap gostring gostring
}.

(** A call either returns or panics (a method called on a nil interface
    value is a run-time panic). *)
Inductive outcome (A : Type) : Type :=
| Returns (a : A)
| Panics.
Arguments Returns {A} a.
Arguments Panics {A}.

(** [func compareKeys(a, b ssh.PublicKey) bool].  [a] is the presented key,
    which the SSH server always supplies; [b] is [None] for the nil
    interface value, on which [b.Type()] panics. *)
Definition compareKeys (a : PublicKey) (b : option PublicKey) : outcome bool :=
  match b with
  | None => Panics
  | Some b =>
      if negb (bool_decide (Type_ a = Type_ b)) then Returns false
      else Returns (subtle.ConstantTimeCompare (Marshal a) (Marshal b) =? 1)%Z
  end.

(** The path [AuthKey] reads the authorized key from. *)
Definition authorizedKeyFile : gostring := str "/etc/deistest.pub".

(** [ioutil.ReadFile] on a store of readable files: the contents, or an
    error next to a nil slice. *)
Definition ReadFile (files : gmap gostring (list byte)) (path : gostring)
  : result (list byte) :=
  match files !! path with
  | Some data => Ok data
  | None => Err (str "open: no such file or directory")
  end.

Section AuthKey.

(** [ssh.ParseAuthorizedKey] is a function of the library: [None] stands
    for its error return, which comes with a nil key. *)
Variable ParseAuthorizedKey : list byte -> option PublicKey.

(** [func AuthKey(c cookoo.Context, p *cookoo.Params)]: both errors are
    dropped ([allowedkey, _ :=], [fmt.Println(err)]), and the key that
    parsing returned goes to [compareKeys] as it is.  The result is the
    permission, [None] for the [nil, nil] return. *)
Definition AuthKey (files : gmap gostring (list byte)) (key : PublicKey)
  : outcome (option Permissions) :=
  let allowedkey :=
    match ReadFile files authorizedKeyFile with
    | Ok data => data
    | Err _ => []
    end in
  let allowed := ParseAuthorizedKey allowedkey in
  match compareKeys key allowed with
  | Panics => Panics
  | Returns true =>
      Returns (Some {| Extensions := {[ str "user" := str "builder" ]} |})
  | Returns false => Returns None
  end.

End AuthKey.

End sshd.

(** ** [pkg/gitreceive/run.go] *)

Module gitreceive.

(** [func readLine(line string) (string, string, string, error)]. *)
Definition readLine (line : gostring)
  : result (gostring * gostring * gostring) :=
  let spl := strings.Split line (str " ") in
  if negb (length spl =? 3)%nat
  then fmt.Errorf (str "malformed line [%s]") [line]
  else Ok (nth 0 spl [], nth 1 spl [], nth 2 spl []).

End gitreceive.

(** ** [pkg/gitreceive/git]: commit hashes *)

Module gitsha.

(** Modelled from the spec: the type [git.SHA] of package
    [pkg/gitreceive/git] is not among the sources.  The code calls its
    method [Short()] only, which the spec describes as the canonical short
    representation of the commit hash, a prefix of fixed length. *)
Record SHA : Type := mkSHA {
  Short : gostring
}.

End gitsha.

(** ** [pkg/gitreceive/storage/slug_builder_info.go] *)

Module storage.

Record SlugBuilderInfo : Type := mkSlugBuilderInfo {
  pushKey : gostring;
  pushURL : gostring;
  tarKey : gostring;
  tarURL : gostring;
  slugKey : gostring;
  slugURL : gostring
}.

(** [os.Getenv]: the value of the variable, empty when it is not set. *)
Definition Getenv (env : gmap gostring gostring) (key : gostring) : gostring :=
  default [] (env !! key).

(** [func NewSlugBuilderInfo(appName, slugName string, gitSha *git.SHA)],
    in the process environment [env]. *)
Definition NewSlugBuilderInfo (env : gmap gostring gostring)
  (appName slugName : gostring) (gitSha : gitsha.SHA) : SlugBuilderInfo :=
  let s3Endpoint :=
    str "http://" ++ Getenv env (str "DEIS_BUILDER_SERVICE_HOST")
    ++ str ":3000" in
  let tarKey := fmt.Sprintf (str "home/%s/tar") [slugName] in
  let pushKey :=
    fmt.Sprintf (str "home/%s:git-%s/push") [appName; gitsha.Short gitSha] in
  let slugKey :=
    fmt.Sprintf (str "home/%s:git-%s/slug") [appName; gitsha.Short gitSha] in
  {| pushKey := pushKey;
     pushURL := fmt.Sprintf (str "%s/git/%s") [s3Endpoint; pushKey];
     tarKey := tarKey;
     tarURL := fmt.Sprintf (str "%s/git/%s") [s3Endpoint; tarKey];
     slugKey := slugKey;
     slugURL := fmt.Sprintf (str "%s/git/%s") [s3Endpoint; slugKey] |}.

Definition PushKey (s : SlugBuilderInfo) : gostring := pushKey s.
Definition PushURL (s : SlugBuilderInfo) : gostring := pushURL s.
Definition TarKey (s : SlugBuilderInfo) : gostring := tarKey s.
Definition TarURL (s : SlugBuilderInfo) : gostring := tarURL s.
Definition SlugURL (s : SlugBuilderInfo) : gostring := slugURL s.

End storage.

(** ** [pkg/git/git.go] *)

Module git.
Import strings.

(** [func cleanRepoName(name string) (string, error)].  Both error
    branches return the empty string next to the error. *)
Definition cleanRepoName (name : gostring) : result gostring :=
  if (length name =? 0)%nat then Err (str "Empty repo name.")
  else if Contains name (str "..")
  then Err (str "Cannot change directory in file name.")
  else
    let name := ReplaceAll name (str "'") [] in
    Ok (TrimPrefix (TrimSuffix name (str ".git")) (str "/")).

(** *** The world outside the process

    What [os.Stat], [os.MkdirAll], [ioutil.WriteFile] and the subprocesses
    see and change: the nodes of the file system by path, the paths whose
    lookup fails for another reason than absence, and the trace of the
    actions taken. *)

Inductive node : Type := Dir | File.

Inductive event : Type :=
| EvStderr (data : gostring)
| EvMkdirAll (path : gostring) (ok : bool)
| EvGitInit (dir : gostring) (ok : bool)
| EvWriteFile (path : gostring) (ok : bool)
| EvStart (args : list gostring) (dir : gostring) (env : list gostring)
          (ok : bool)
| EvCopy (ok : bool)
| EvWait (ok : bool).

Record World : Type := mkWorld {
  nodes : gmap gostring node;
  stat_err : gmap gostring gostring;
  log : list event
}.

(** What the operating system and the subprocesses answer to one call of
    [Receive], where the model leaves it open: the error of a call, if
    any, and what the subprocess writes on its standard error. *)
Record Oracle : Type := mkOracle {
  mkdir_err : option gostring;
  git_init_err : option gostring;
  write_err : option gostring;
  pipe_err : option gostring;
  start_err : option gostring;
  copy_err : option gostring;
  copy_stderr : gostring;
  wait_err : option gostring;
  wait_stderr : gostring;
  Environ : list gostring
}.

Inductive stat_result : Type :=
| StatDir
| StatFile
| StatNotExist
| StatError (msg : gostring).

(** [os.Stat], classified the way [createRepo] tests its result. *)
Definition Stat (w : World) (path : gostring) : stat_result :=
  match stat_err w !! path with
  | Some e => StatError e
  | None =>
      match nodes w !! path with
      | Some Dir => StatDir
      | Some File => StatFile
      | None => StatNotExist
      end
  end.

Definition record (e : event) (w : World) : World :=
  {| nodes := nodes w; stat_err := stat_err w; log := log w ++ [e] |}.

Definition put (path : gostring) (n : node) (w : World) : World :=
  {| nodes := <[path := n]> (nodes w); stat_err := stat_err w; log := log w |}.

(** [os.MkdirAll(path, 0755)]: fails, or leaves a directory at [path]
    (the parents it creates on the way are not tracked). *)
Definition MkdirAll (o : Oracle) (path : gostring) (w : World)
  : option gostring * World :=
  match mkdir_err o with
  | Some e => (Some e, record (EvMkdirAll path false) w)
  | None => (None, record (EvMkdirAll path true) (put path Dir w))
  end.

(** The entries [git init --bare] creates in its working directory. *)
Definition bareLayout : list (gostring * node) :=
  [(str "/HEAD", File); (str "/config", File); (str "/description", File);
   (str "/hooks", Dir); (str "/info", Dir); (str "/objects", Dir);
   (str "/refs", Dir)].

Definition addBare (dir : gostring) (w : World) : World :=
  fold_right (fun e w => put (dir ++ fst e) (snd e) w) w bareLayout.

(** [exec.Command("git", "init", "--bare")] run with [cmd.Dir = dir]. *)
Definition gitInitBare (o : Oracle) (dir : gostring) (w : World)
  : option gostring * World :=
  match git_init_err o with
  | Some e => (Some e, record (EvGitInit dir false) w)
  | None =>
      (None, record (EvGitInit dir true) (addBare dir w))
  end.

(** [func createRepo(c cookoo.Context, repoPath string) (bool, error)],
    run by one thread alone ([createLock] is taken on entry and released
    on return; the threads are modelled further down). *)
Definition createRepo (o : Oracle) (repoPath : gostring) (w : World)
  : result bool * World :=
  match Stat w repoPath with
  | StatDir => (Ok false, w)
  | StatNotExist =>
      match MkdirAll o repoPath w with
      | (Some e, w1) => (Err e, w1)
      | (None, w1) =>
          match gitInitBare o repoPath w1 with
          | (Some e, w2) => (Err e, w2)
          | (None, w2) => (Ok true, w2)
          end
      end
  | StatFile => (Err (str "Expected directory, found file."), w)
  | StatError e => (Err e, w)
  end.

(** *** [createRepo] run by several threads

    Every thread runs [createRepo] on one path.  A thread is at the call
    of [createLock.Lock()], at one of the three calls made under the lock,
    at the deferred [Unlock] with its result, or has returned. *)

Inductive pc : Type :=
| AtLock
| AtStat
| AtMkdirAll
| AtGitInit
| AtUnlock (r : result bool)
| Finished (r : result bool).

Record System : Type := mkSystem {
  world : World;
  createLock : option nat;
  threads : list pc
}.

(** Where a thread goes after [os.Stat], by the branches of the source. *)
Definition afterStat (r : stat_result) : pc :=
  match r with
  | StatDir => AtUnlock (Ok false)
  | StatNotExist => AtMkdirAll
  | StatFile => AtUnlock (Err (str "Expected directory, found file."))
  | StatError e => AtUnlock (Err e)
  end.

Definition afterCall (e : option gostring) (next : pc) : pc :=
  match e with
  | Some e => AtUnlock (Err e)
  | None => next
  end.

Definition move (i : nat) (p : pc) (w : World) (l : option nat) (s : System)
  : System :=
  {| world := w; createLock := l; threads := <[i := p]> (threads s) |}.

(** One step of one thread [i]; [Lock] needs the mutex to be free. *)
Inductive step (repoPath : gostring) : System -> System -> Prop :=
| step_Lock i s :
    threads s !! i = Some AtLock ->
    createLock s = None ->
    step repoPath s (move i AtStat (world s) (Some i) s)
| step_Stat i s :
    threads s !! i = Some AtStat ->
    step repoPath s
      (move i (afterStat (Stat (world s) repoPath)) (world s) (createLock s) s)
| step_MkdirAll i s o :
    threads s !! i = Some AtMkdirAll ->
    step repoPath s
      (move i (afterCall (fst (MkdirAll o repoPath (world s))) AtGitInit)
         (snd (MkdirAll o repoPath (world s))) (createLock s) s)
| step_GitInit i s o :
    threads s !! i = Some AtGitInit ->
    step repoPath s
      (move i
         (afterCall (fst (gitInitBare o repoPath (world s)))
            (AtUnlock (Ok true)))
         (snd (gitInitBare o repoPath (world s))) (createLock s) s)
| step_Unlock i s r :
    threads s !! i = Some (AtUnlock r) ->
    step repoPath s (move i (Finished r) (world s) None s).

(** [n] threads about to call [createRepo] in a world without history. *)
Definition start (n : nat) (fs : gmap gostring node)
  (errs : gmap gostring gostring) : System :=
  {| world := {| nodes := fs; stat_err := errs; log := [] |};
     createLock := None;
     threads := replicate n AtLock |}.

(** A thread is between [Lock] and [Unlock]. *)
Definition holding (p : pc) : bool :=
  match p with
  | AtStat | AtMkdirAll | AtGitInit | AtUnlock _ => true
  | AtLock | Finished _ => false
  end.

Definition finished (p : pc) : bool :=
  match p with Finished _ => true | _ => false end.

(** The executions of [git init --bare] in [dir] that a trace holds. *)
Definition isGitInit (dir : gostring) (e : event) : bool :=
  match e with
  | EvGitInit d _ => bool_decide (d = dir)
  | _ => false
  end.

Definition gitInits (dir : gostring) (l : list event) : nat :=
  length (filter (fun e => isGitInit dir e = true) l).

(** The calls a thread still has to make, [Lock] and [Unlock] included. *)
Definition remaining (p : pc) : nat :=
  match p with
  | AtLock => 5
  | AtStat => 4
  | AtMkdirAll => 3
  | AtGitInit => 2
  | AtUnlock _ => 1
  | Finished _ => 0
  end.

Definition work (s : System) : nat :=
  list_sum (map remaining (threads s)).

(** A thread returns, or is about to return, [true]: it created the
    repository. *)
Definition created (p : pc) : nat :=
  match p with
  | AtUnlock (Ok true) | Finished (Ok true) => 1
  | _ => 0
  end.

Definition creators (s : System) : nat :=
  list_sum (map created (threads s)).

(** A thread returns, or is about to return, an error. *)
Definition failed (p : pc) : bool :=
  match p with
  | AtUnlock (Err _) | Finished (Err _) => true
  | _ => false
  end.

(** *** [Receive] *)

Definition dq : gostring := [ascii_of_nat 34].
Definition nl : gostring := [ascii_of_nat 10].

(** [preReceiveHookTplStr] executed with [.GitHome] set to [gitHome]. *)
Definition preReceiveHook (gitHome : gostring) : gostring :=
  Join
    [str "#!/bin/bash";
     str "strip_remote_prefix() {";
     str "    stdbuf -i0 -o0 -e0 sed " ++ dq ++ str "s/^/" ++ dq
       ++ str "$'\e[1G'" ++ dq ++ str "/" ++ dq;
     str "}";
     [];
     str "GIT_HOME=" ++ gitHome ++ str " \";
     str "SSH_CONNECTION=" ++ dq ++ str "$SSH_CONNECTION" ++ dq ++ str " \";
     str "SSH_ORIGINAL_COMMAND=" ++ dq ++ str "$SSH_ORIGINAL_COMMAND" ++ dq
       ++ str " \";
     str "REPOSITORY=" ++ dq ++ str "$RECEIVE_REPO" ++ dq ++ str " \";
     str "USERNAME=" ++ dq ++ str "$RECEIVE_USER" ++ dq ++ str " \";
     str "FINGERPRINT=" ++ dq ++ str "$RECEIVE_FINGERPRINT" ++ dq ++ str " \";
     str "POD_NAMESPACE=" ++ dq ++ str "$POD_NAMESPACE" ++ dq ++ str " \";
     str "boot git-receive | strip_remote_prefix";
     []]
    nl.

(** The text the verb [%q] prints for a slice of plain names. *)
Definition quoted (z : list gostring) : gostring :=
  str "[" ++ Join (map (fun x => dq ++ x ++ dq) z) (str " ") ++ str "]".

Section Receive.

(** [filepath.Join] of the Go library, which joins and cleans a path. *)
Variable filepathJoin : list gostring -> gostring.

(** [func createPreReceiveHook(c cookoo.Context, gitHome, repoPath string)
    error]; executing the template into a buffer does not fail. *)
Definition createPreReceiveHook (o : Oracle) (gitHome repoPath : gostring)
  (w : World) : result unit * World :=
  let writePath := filepathJoin [repoPath; str "hooks"; str "pre-receive"] in
  match write_err o with
  | Some e =>
      (fmt.Errorf (str "Cannot write pre-receive hook to %s (%s)")
         [writePath; e],
       record (EvWriteFile writePath false) w)
  | None => (Ok tt, record (EvWriteFile writePath true) (put writePath File w))
  end.

(** The arguments and the environment of the [git-shell] subprocess. *)
Definition shellArgs (operation repo : gostring) : list gostring :=
  [str "git-shell"; str "-c"; fmt.Sprintf (str "%s '%s'") [operation; repo]].

Definition shellEnv (o : Oracle) (operation repo fingerprint conn : gostring)
  : list gostring :=
  [fmt.Sprintf (str "RECEIVE_USER=%s") [str "builder"];
   fmt.Sprintf (str "RECEIVE_REPO=%s") [repo];
   fmt.Sprintf (str "RECEIVE_FINGERPRINT=%s") [fingerprint];
   fmt.Sprintf (str "SSH_ORIGINAL_COMMAND=%s '%s'") [operation; repo];
   fmt.Sprintf (str "SSH_CONNECTION=%s") [conn]]
  ++ Environ o.

(** The subprocess part of [Receive], from [cmd.StdinPipe()] on.  [errbuff]
    is the buffer behind [io.MultiWriter(channel.Stderr(), &errbuff)]: it
    is empty while the subprocess has not started, and then holds what the
    subprocess has written on its standard error so far. *)
Definition runShell (o : Oracle) (operation repo gitHome fingerprint conn
  : gostring) (w : World) : result unit * World :=
  match pipe_err o with
  | Some e => (Err e, w)
  | None =>
      let args := shellArgs operation repo in
      let env := shellEnv o operation repo fingerprint conn in
      let errbuff : gostring := [] in
      match start_err o with
      | Some e =>
          (fmt.Errorf (str "Failed to start git pre-receive hook: %s (%s)")
             [e; errbuff],
           record (EvStart args gitHome env false) w)
      | None =>
          let w := record (EvStart args gitHome env true) w in
          let errbuff := errbuff ++ copy_stderr o in
          let w := record (EvStderr (copy_stderr o)) w in
          match copy_err o with
          | Some e =>
              (fmt.Errorf
                 (str "Failed to write git objects into the git pre-receive hook (%s)")
                 [e],
               record (EvCopy false) w)
          | None =>
              let w := record (EvCopy true) w in
              let errbuff := errbuff ++ wait_stderr o in
              let w := record (EvStderr (wait_stderr o)) w in
              match wait_err o with
              | Some e =>
                  (fmt.Errorf
                     (str "Failed to run git pre-receive hook: %s (%s)")
                     [errbuff; e],
                   record (EvWait false) w)
              | None => (Ok tt, record (EvWait true) w)
              end
          end
      end
  end.

(** [func Receive(c cookoo.Context, p *cookoo.Params)].  [missing] is the
    list [p.Requires("channel", "request")] returns, [fingerprint] the
    value of [sshd.Fingerprint()] (the call is taken to return), [conn]
    the value of [c.Get("SSH_CONNECTION", "0 0 0 0")]. *)
Definition Receive (o : Oracle) (missing : list gostring)
  (repoName operation gitHome fingerprint conn : gostring) (w : World)
  : result unit * World :=
  if negb (length missing =? 0)%nat
  then (Err (str "Missing requirements " ++ quoted missing), w)
  else
    match cleanRepoName repoName with
    | Err e => (Err e, record (EvStderr (str "No repo given")) w)
    | Ok repo =>
        let repo := repo ++ str ".git" in
        let repoPath := filepathJoin [gitHome; repo] in
        match createRepo o repoPath w with
        | (Err e, w) =>
            (fmt.Errorf (str "Did not create new repo (%s)") [e], w)
        | (Ok _, w) =>
            match createPreReceiveHook o gitHome repoPath w with
            | (Err e, w) =>
                (fmt.Errorf (str "Did not write pre-receive hook (%s)") [e], w)
            | (Ok _, w) =>
                runShell o operation repo gitHome fingerprint conn w
            end
        end
    end.

End Receive.

(** The starts of a subprocess that a trace holds. *)
Definition isStart (e : event) : bool :=
  match e with EvStart _ _ _ _ => true | _ => false end.

Definition starts (l : list event) : nat :=
  length (filter (fun e => isStart e = true) l).

End git.

(** The name [cleanRepoName] returns for a name without quotes that has
    passed its two tests. *)
Definition trimmed (s : gostring) : gostring :=
  strings.TrimPrefix (strings.TrimSuffix s (str ".git")) (str "/").

(** ** [pkg/sshd/sshd.go]: [Fingerprint] *)

Module fingerprint.
Import sshd.

(** Package [encoding/hex]: [hextable], and the two digits [Encode] writes
    for a byte [v], [hextable[v>>4]] and [hextable[v&0x0f]]. *)
Definition hextable : gostring := str "0123456789abcdef".

Definition hexdigit (n : N) : ascii := nth (N.to_nat n) hextable "0"%char.

Definition hexpair (v : byte) : gostring :=
  [hexdigit (N.shiftr (Byte.to_N v) 4); hexdigit (N.land (Byte.to_N v) 15)].

(** [hex.Encode(dst, src)] into a [dst] of [hex.EncodedLen(len(src))]
    bytes. *)
Definition hexEncode (src : list byte) : gostring := flat_map hexpair src.

(** [fp[j] = c] on a slice: an index out of range panics. *)
Definition store (j : nat) (c : ascii) (fp : gostring) : option gostring :=
  if (j <? length fp)%nat then Some (<[j := c]> fp) else None.

(** The loop [for ; i < len(buf); i++] of [Fingerprint], at index [i] with
    [rest] the bytes of [buf] from [i] on. *)
Fixpoint colons (rest : gostring) (i j : nat) (fp : gostring)
  : outcome gostring :=
  match rest with
  | [] => Returns fp
  | c :: rest' =>
      if ((0 <? i)%nat && (i mod 2 =? 0)%nat)%bool
      then
        match store j ":"%char fp with
        | None => Panics
        | Some fp =>
            match store (S j) c fp with
            | None => Panics
            | Some fp => colons rest' (S i) (S (S j)) fp
            end
        end
      else
        match store j c fp with
        | None => Panics
        | Some fp => colons rest' (S i) (S j) fp
        end
  end.

(** [Fingerprint] from the hash on: the hexadecimal text of the hash, put
    in colon notation into a buffer of [len(buf)+15] bytes. *)
Definition colonNotation (hash : list byte) : outcome gostring :=
  let buf := hexEncode hash in
  colons buf 0 0 (replicate (length buf + 15) Ascii.zero).

(** The reading of a digit of [hextable], for the proofs. *)
Definition unhex (c : ascii) : N :=
  match find (fun n => bool_decide (hexdigit n = c))
          (map N.of_nat (seq 0 16)) with
  | Some n => n
  | None => 0
  end.

Section Fingerprint.

Variable ParseAuthorizedKey : list byte -> option PublicKey.

(** [md5.Sum], whose result is a [[16]byte]. *)
Variable md5Sum : list byte -> list byte.

(** [func Fingerprint() string]: as in [AuthKey] both errors are dropped,
    and [key.Marshal()] is called on the key that parsing returned, nil or
    not. *)
Definition Fingerprint (files : gmap gostring (list byte)) : outcome gostring :=
  let allowedkey :=
    match ReadFile files authorizedKeyFile with
    | Ok data => data
    | Err _ => []
    end in
  match ParseAuthorizedKey allowedkey with
  | None => Panics
  | Some key => colonNotation (md5Sum (Marshal key))
  end.

End Fingerprint.

End fingerprint.

(** ** [pkg/git/git.go]: [checkIfAllowed] *)

Module allowed.

(** [func checkIfAllowed(app string, validApps []string) bool]. *)
Fixpoint checkIfAllowed (app : gostring) (validApps : list gostring) : bool :=
  match validApps with
  | [] => false
  | validApp :: rest =>
      if bool_decide (validApp = app) then true else checkIfAllowed app rest
  end.

End allowed.

(** ** [pkg/gitreceive/run.go]: [Run] *)

Module run.

(** The fields of [Config] that [Run] reads. *)
Record Config : Type := mkConfig {
  StorageRegion : gostring;
  SSHOriginalCommand : gostring
}.

(** The calls [Run] makes for a line. *)
Inductive call : Type :=
| CallReceive (newRev : gostring)
| CallBuild (newRev : gostring).

(** What the collaborators of [Run] answer: the builder key or the error
    of [GetBuilderKey], the errors of [storage.GetClient] and
    [client.NewInCluster], the error of [receive] and of [build] at the
    [n]-th line for a revision, and the error of the scanner at the end of
    the input. *)
Record Collaborators : Type := mkCollaborators {
  GetBuilderKey : result gostring;
  GetClient : gostring -> option gostring;
  NewInCluster : option gostring;
  receive : nat -> gostring -> option gostring;
  build : nat -> gostring -> option gostring;
  scannerErr : option gostring
}.

(** The loop [for scanner.Scan()] over the lines the scanner yields, from
    the [n]-th on: the error returned ([None] for nil) and the calls
    made. *)
Fixpoint scan (k : Collaborators) (conf : Config) (n : nat)
  (lines : list gostring) : option gostring * list call :=
  match lines with
  | [] => (scannerErr k, [])
  | line :: rest =>
      match gitreceive.readLine line with
      | Err err => (Some (fmt.Sprintf (str "reading STDIN (%s)") [err]), [])
      | Ok (oldRev, newRev, refName) =>
          match receive k n newRev with
          | Some err => (Some err, [CallReceive newRev])
          | None =>
              if strings.HasPrefix (SSHOriginalCommand conf)
                   (str "git-receive-pack")
              then
                match build k n newRev with
                | Some err => (Some err, [CallReceive newRev; CallBuild newRev])
                | None =>
                    let (r, calls) := scan k conf (S n) rest in
                    (r, CallReceive newRev :: CallBuild newRev :: calls)
                end
              else
                let (r, calls) := scan k conf (S n) rest in
                (r, CallReceive newRev :: calls)
          end
      end
  end.

(** [func Run(conf *Config) error] on the lines of the standard input. *)
Definition Run (k : Collaborators) (conf : Config) (lines : list gostring)
  : option gostring * list call :=
  match GetBuilderKey k with
  | Err err => (Some err, [])
  | Ok builderKey =>
      match GetClient k (StorageRegion conf) with
      | Some err =>
          (Some (fmt.Sprintf (str "configuring S3 client (%s)") [err]), [])
      | None =>
          match NewInCluster k with
          | Some err =>
              (Some (fmt.Sprintf (str "couldn't reach the api server (%s)")
                       [err]), [])
          | None => scan k conf 0 lines
          end
      end
  end.

Definition isBuild (c : call) : bool :=
  match c with CallBuild _ => true | CallReceive _ => false end.

(** The calls made for well-formed lines that all go through. *)
Definition callsFor (conf : Config) (newRev : gostring) : list call :=
  if strings.HasPrefix (SSHOriginalCommand conf) (str "git-receive-pack")
  then [CallReceive newRev; CallBuild newRev]
  else [CallReceive newRev].

(** The calls made for a line that goes through. *)
Definition lineCalls (conf : Config) (line : gostring) : list call :=
  match gitreceive.readLine line with
  | Ok (_, newRev, _) => callsFor conf newRev
  | Err _ => []
  end.

(** The [n]-th line goes through: it is well formed, and the calls made
    for it return no error. *)
Definition passes (k : Collaborators) (conf : Config) (n : nat)
  (line : gostring) : Prop :=
  exists oldRev newRev refName,
    gitreceive.readLine line = Ok (oldRev, newRev, refName)
    /\ receive k n newRev = None
    /\ (strings.HasPrefix (SSHOriginalCommand conf) (str "git-receive-pack")
        = true -> build k n newRev = None).

(** The set-up of [Run] succeeds. *)
Definition ready (k : Collaborators) (conf : Config) : Prop :=
  is_err (GetBuilderKey k) = false
  /\ GetClient k (StorageRegion conf) = None
  /\ NewInCluster k = None.

End run.

(** ** [pkg/gitreceive/k8s_util_test.go]: the helpers of the tests *)

Module k8s_util_test.
Import sshd.

(** [api.EnvVar], [api.Container] and [api.Pod], as far as the helpers
    read them ([pod.Spec.Containers[0].Env]). *)
Record EnvVar : Type := mkEnvVar {
  Name : gostring;
  Value : gostring
}.

Record Container : Type := mkContainer {
  Env : list EnvVar
}.

Record Pod : Type := mkPod {
  Containers : list Container
}.

(** The loop of [envValueFromKey]. *)
Fixpoint firstValue (env : list EnvVar) (key : gostring) : option gostring :=
  match env with
  | [] => None
  | e :: rest =>
      if bool_decide (Name e = key) then Some (Value e)
      else firstValue rest key
  end.

(** [func envValueFromKey(pod *api.Pod, key string) (string, error)];
    [Containers[0]] panics on a pod without container.  The verb [%v]
    prints a string as it is. *)
Definition envValueFromKey (pod : Pod) (key : gostring)
  : outcome (result gostring) :=
  match Containers pod with
  | [] => Panics
  | c :: _ =>
      match firstValue (Env c) key with
      | Some v => Returns (Ok v)
      | None =>
          Returns (Err (str "no key with name " ++ key
                        ++ str " found in pod env"))
      end
  end.

(** [func checkForEnv(t *testing.T, pod *api.Pod, key, expVal string)]:
    the messages it hands to [t.Errorf], after those in [reported].  The
    comparison of the source is [val != val]. *)
Definition checkForEnv (reported : list gostring) (pod : Pod)
  (key expVal : gostring) : outcome (list gostring) :=
  match envValueFromKey pod key with
  | Panics => Panics
  | Returns r =>
      let val := match r with Ok v => v | Err _ => [] end in
      let reported :=
        match r with
        | Ok _ => reported
        | Err err => reported ++ [err]
        end in
      if negb (bool_decide (val = val))
      then Returns (reported
                    ++ [str "expected " ++ expVal ++ str " but returned "
                        ++ val ++ str " "])
      else Returns reported
  end.

End k8s_util_test.

(** *** What holds of the threads of [createRepo] at every moment *)

(** Only the owner of the mutex is between [Lock] and [Unlock], and the
    owner is there. *)
Definition exclusive (s : git.System) : Prop :=
  (forall i p, git.threads s !! i = Some p -> git.holding p = true ->
               git.createLock s = Some i)
  /\ (forall h, git.createLock s = Some h ->
                exists p, git.threads s !! h = Some p /\ git.holding p = true).

(** What a thread knows of the world at the call it is about to make. *)
Definition informed (repoPath : gostring) (w : git.World) (p : git.pc)
  : Prop :=
  match p with
  | git.AtMkdirAll =>
      git.Stat w repoPath = git.StatNotExist
      /\ git.gitInits repoPath (git.log w) = 0
  | git.AtGitInit =>
      git.Stat w repoPath = git.StatDir
      /\ git.gitInits repoPath (git.log w) = 0
  | _ => True
  end.

Definition invariant (repoPath : gostring) (s : git.System) : Prop :=
  exclusive s
  /\ (forall i p, git.threads s !! i = Some p ->
                  informed repoPath (git.world s) p)
  /\ git.gitInits repoPath (git.log (git.world s)) <= 1
  /\ (git.gitInits repoPath (git.log (git.world s)) = 1 ->
      git.Stat (git.world s) repoPath = git.StatDir).

(** A thread has not yet decided its result. *)
Definition undecided (p : git.pc) : bool :=
  match p with
  | git.AtLock | git.AtStat | git.AtMkdirAll | git.AtGitInit => true
  | git.AtUnlock _ | git.Finished _ => false
  end.

(** While nothing has failed and [git init] has not run, no thread has
    decided, and the path is still absent unless a thread is about to run
    [git init]. *)
Definition pending (repoPath : gostring) (s : git.System) : Prop :=
  git.gitInits repoPath (git.log (git.world s)) = 0 ->
  git.EvMkdirAll repoPath false ∉ git.log (git.world s) ->
  (forall i p, git.threads s !! i = Some p -> undecided p = true)
  /\ (git.Stat (git.world s) repoPath = git.StatNotExist
      \/ exists i, git.threads s !! i = Some git.AtGitInit).

(** No more threads are told that they created the repository than
    [git init] was run, and the thread that ran it without failure is told
    so. *)
Definition settled (repoPath : gostring) (s : git.System) : Prop :=
  git.creators s <= git.gitInits repoPath (git.log (git.world s))
  /\ (git.gitInits repoPath (git.log (git.world s)) = 1 ->
      git.EvGitInit repoPath false ∉ git.log (git.world s) ->
      git.creators s = 1).

(** From a start without the path: the path is absent or a directory, and
    a thread returns an error only after a call that failed. *)
Definition unspoilt (repoPath : gostring) (s : git.System) : Prop :=
  (git.Stat (git.world s) repoPath = git.StatNotExist
   \/ git.Stat (git.world s) repoPath = git.StatDir)
  /\ forall i p,
       git.threads s !! i = Some p -> git.failed p = true ->
       git.EvMkdirAll repoPath false ∈ git.log (git.world s)
       \/ git.EvGitInit repoPath false ∈ git.log (git.world s).

(** The separator of [readLine]. *)
Definition sp : ascii := " "%char.

(** * Properties *)

(** ** Facts about the string functions *)

Section StringFacts.
Import strings.
Implicit Types s p t : gostring.

Lemma HasPrefix_true s p : HasPrefix s p = true <-> exists t, s = p ++ t.
Proof.
  unfold HasPrefix. rewrite andb_true_iff, Nat.leb_le, bool_decide_eq_true.
  split.
  - intros [_ H]. exists (skipn (length p) s).
    rewrite <- H at 1. symmetry. apply take_drop.
  - intros [t ->]. rewrite length_app, take_app_length. split; [lia | done].
Qed.

Lemma HasSuffix_true s p : HasSuffix s p = true <-> exists t, s = t ++ p.
Proof.
  unfold HasSuffix. rewrite andb_true_iff, Nat.leb_le, bool_decide_eq_true.
  split.
  - intros [_ H]. exists (firstn (length s - length p) s).
    rewrite <- (take_drop (length s - length p) s) at 1. by rewrite H.
  - intros [t ->]. rewrite length_app.
    replace (length t + length p - length p) with (length t) by lia.
    rewrite drop_app_length. split; [lia | done].
Qed.



(** [TrimPrefix] removes one occurrence of the prefix, or nothing. *)
Lemma TrimPrefix_cases s p :
  (HasPrefix s p = true /\ s = p ++ TrimPrefix s p)
  \/ (HasPrefix s p = false /\ TrimPrefix s p = s).
Proof.
  unfold TrimPrefix. destruct (HasPrefix s p) eqn:E; [left | right; done].
  split; [done |]. apply HasPrefix_true in E as [t ->].
  by rewrite drop_app_length.
Qed.

Lemma TrimSuffix_cases s p :
  (HasSuffix s p = true /\ s = TrimSuffix s p ++ p)
  \/ (HasSuffix s p = false /\ TrimSuffix s p = s).
Proof.
  unfold TrimSuffix. destruct (HasSuffix s p) eqn:E; [left | right; done].
  split; [done |]. apply HasSuffix_true in E as [t ->].
  rewrite length_app.
  replace (length t + length p - length p) with (length t) by lia.
  by rewrite take_app_length.
Qed.

Lemma Contains_true s p :
  Contains s p = true <-> exists u v, s = u ++ p ++ v.
Proof.
  induction s as [|c s IH]; simpl.
  - rewrite orb_false_r, HasPrefix_true. split.
    + intros [t H]. by exists [], t.
    + intros (u & v & H). destruct u; [by exists v |]. discriminate.
  - rewrite orb_true_iff, HasPrefix_true, IH. split.
    + intros [[t H] | (u & v & H)].
      * by exists [], t.
      * exists (c :: u), v. by rewrite H.
    + intros (u & v & H). destruct u as [|c' u].
      * left. by exists v.
      * right. exists u, v. by injection H.
Qed.

Lemma Contains_false s p :
  Contains s p = false <-> ~ exists u v, s = u ++ p ++ v.
Proof. rewrite <- Contains_true. destruct (Contains s p); naive_solver. Qed.

Lemma HasPrefix_single (c d : ascii) s :
  HasPrefix (c :: s) [d] = bool_decide (c = d).
Proof.
  unfold HasPrefix; simpl. apply bool_decide_ext. naive_solver.
Qed.

(** Removing every single quote is a filter. *)
Lemma ReplaceAll_quote s :
  ReplaceAll s (str "'") [] = filter (fun c => c <> "'"%char) s.
Proof.
  unfold ReplaceAll; simpl.
  induction s as [|c s IH]; [done |].
  rewrite filter_cons. cbn [replace_from app length Nat.sub].
  rewrite HasPrefix_single, IH.
  destruct (decide (c <> "'"%char)) as [Hne | Heq].
  - by rewrite bool_decide_eq_false_2.
  - apply dec_stable in Heq. by rewrite bool_decide_eq_true_2.
Qed.

Lemma filter_quote_id s :
  ("'"%char) ∉ s -> filter (fun c => c <> "'"%char) s = s.
Proof.
  induction s as [|c s IH]; [done |].
  rewrite not_elem_of_cons. intros [Hc Hs].
  rewrite filter_cons. destruct (decide (c <> "'"%char)); [| naive_solver].
  by rewrite IH.
Qed.

End StringFacts.

(** ** [cleanRepoName] *)

Section CleanRepoName.
Import strings.
Implicit Types s p t name r : gostring.



Lemma TrimPrefix_length s p : length (TrimPrefix s p) <= length s.
Proof.
  destruct (TrimPrefix_cases s p) as [[_ H] | [_ H]].
  - rewrite H at 2. rewrite length_app. lia.
  - by rewrite H.
Qed.

Lemma TrimPrefix_elem (c : ascii) s p : c ∈ TrimPrefix s p -> c ∈ s.
Proof.
  destruct (TrimPrefix_cases s p) as [[_ H] | [_ H]].
  - intros Hc. rewrite H. apply elem_of_app. by right.
  - by rewrite H.
Qed.

Lemma TrimSuffix_elem (c : ascii) s p : c ∈ TrimSuffix s p -> c ∈ s.
Proof.
  destruct (TrimSuffix_cases s p) as [[_ H] | [_ H]].
  - intros Hc. rewrite H. apply elem_of_app. by left.
  - by rewrite H.
Qed.




Lemma trimmed_no_quote s : ("'"%char) ∉ s -> ("'"%char) ∉ trimmed s.
Proof.
  intros Hs Hc. apply Hs. unfold trimmed in Hc.
  by apply TrimPrefix_elem, TrimSuffix_elem in Hc.
Qed.

(** The name is left as it is exactly when there is nothing to trim. *)
Lemma trimmed_fixed s :
  trimmed s = s
  <-> HasPrefix s (str "/") = false /\ HasSuffix s (str ".git") = false.
Proof.
  unfold trimmed. split.
  - intros Hfix.
    pose proof (TrimPrefix_length (TrimSuffix s (str ".git")) (str "/")) as Hl.
    rewrite Hfix in Hl.
    destruct (TrimSuffix_cases s (str ".git")) as [[_ G] | [G1 G]].
    + rewrite G in Hl at 1. rewrite length_app in Hl. simpl in Hl. lia.
    + split; [| done]. rewrite G in Hfix.
      destruct (TrimPrefix_cases s (str "/")) as [[_ H] | [H _]]; [| done].
      rewrite Hfix in H. apply (f_equal length) in H. simpl in H. lia.
  - intros [H1 H2]. unfold TrimSuffix. rewrite H2.
    unfold TrimPrefix. by rewrite H1.
Qed.

Lemma cleanRepoName_Ok name r :
  git.cleanRepoName name = Ok r
  <-> name <> [] /\ Contains name (str "..") = false
      /\ r = trimmed (ReplaceAll name (str "'") []).
Proof.
  unfold git.cleanRepoName, trimmed.
  destruct name as [|c name]; simpl length; cbn [Nat.eqb].
  - split; [discriminate | intros (H & _); by destruct H].
  - destruct (Contains (c :: name) (str "..")).
    + split; [discriminate | intros (_ & H & _); discriminate H].
    + split.
      * intros [= <-]. done.
      * intros (_ & _ & ->). done.
Qed.


Lemma ReplaceAll_no_quote s : ("'"%char) ∉ ReplaceAll s (str "'") [].
Proof.
  rewrite ReplaceAll_quote, list_elem_of_filter. intros [H _]; by apply H.
Qed.

End CleanRepoName.




(** C7, as the code has it.  When [cleanRepoName] succeeds with a name [r],
    applying it to [r] succeeds and returns [r] again exactly when [r] is
    not empty, does not contain [".."], does not begin with ["/"] and does
    not end in [".git"]. *)
Theorem cleanRepoName_twice (name r : gostring) :
  git.cleanRepoName name = Ok r ->
  (git.cleanRepoName r = Ok r
   <-> r <> [] /\ strings.Contains r (str "..") = false
       /\ strings.HasPrefix r (str "/") = false
       /\ strings.HasSuffix r (str ".git") = false).
Proof.
  intros Hr.
  assert (("'"%char) ∉ r) as Hq.
  { apply cleanRepoName_Ok in Hr as (_ & _ & ->).
    apply trimmed_no_quote, ReplaceAll_no_quote. }
  rewrite cleanRepoName_Ok, ReplaceAll_quote, (filter_quote_id r Hq).
  split.
  - intros (Hne & Hc & Hfix). symmetry in Hfix.
    apply trimmed_fixed in Hfix. intuition.
  - intros (Hne & Hc & Hp & Hs). repeat split; [done | done |].
    symmetry. by apply trimmed_fixed.
Qed.

Lemma cleanRepoName_twice_witness :
  git.cleanRepoName (str "demo") = Ok (str "demo").
Proof.
  apply (cleanRepoName_twice (str "/'demo'.git") (str "demo")).
  - reflexivity.
  - repeat split; [discriminate | reflexivity ..].
Defined.

(** C7 as the spec words it fails: a second pass can change the name, and
    it can reject it. *)
Lemma cleanRepoName_not_idempotent :
  ~ (forall name r, git.cleanRepoName name = Ok r ->
       git.cleanRepoName r = Ok r)
  /\ git.cleanRepoName (str "a.git.git") = Ok (str "a.git")
  /\ git.cleanRepoName (str "a.git") = Ok (str "a")
  /\ git.cleanRepoName (str ".'.") = Ok (str "..")
  /\ is_err (git.cleanRepoName (str "..")) = true.
Proof.
  split; [| repeat split; reflexivity].
  intros H. specialize (H (str "a.git.git") (str "a.git") eq_refl).
  discriminate H.
Qed.

(** ** Constant-time comparison and [AuthKey] *)

Section ConstantTime.
Import subtle.
Local Open Scope Z_scope.

Lemma byte_val_range b : 0 <= byte_val b < 2 ^ 8.
Proof.
  unfold byte_val. pose proof (Byte.to_N_bounded b). lia.
Qed.

Lemma byte_val_inj a b : byte_val a = byte_val b -> a = b.
Proof.
  unfold byte_val. intros H. apply N2Z.inj in H.
  pose proof (Byte.of_to_N a) as Ha. rewrite H, Byte.of_to_N in Ha.
  by injection Ha.
Qed.

Lemma small_log2 a : 0 <= a < 2 ^ 8 -> Z.log2 a < 8.
Proof.
  intros [H0 H1]. destruct (decide (a = 0)) as [-> | Hne]; [done |].
  apply Z.log2_lt_pow2; lia.
Qed.

Lemma log2_small a : 0 <= a -> Z.log2 a < 8 -> a < 2 ^ 8.
Proof.
  intros H0 H1. destruct (decide (a = 0)) as [-> | Hne]; [done |].
  apply Z.log2_lt_pow2; lia.
Qed.

Lemma lxor_range a b :
  0 <= a < 2 ^ 8 -> 0 <= b < 2 ^ 8 -> 0 <= Z.lxor a b < 2 ^ 8.
Proof.
  intros Ha Hb.
  assert (0 <= Z.lxor a b) as H0 by (apply Z.lxor_nonneg; lia).
  split; [done |]. apply log2_small; [done |].
  pose proof (Z.log2_lxor a b ltac:(lia) ltac:(lia)).
  pose proof (small_log2 a Ha). pose proof (small_log2 b Hb). lia.
Qed.

Lemma lor_range a b :
  0 <= a < 2 ^ 8 -> 0 <= b < 2 ^ 8 -> 0 <= Z.lor a b < 2 ^ 8.
Proof.
  intros Ha Hb.
  assert (0 <= Z.lor a b) as H0 by (apply Z.lor_nonneg; lia).
  split; [done |]. apply log2_small; [done |].
  rewrite Z.log2_lor by lia.
  pose proof (small_log2 a Ha). pose proof (small_log2 b Hb). lia.
Qed.

(** One turn of the loop keeps [v] a byte, and leaves it zero exactly when
    it was zero and the two bytes agree. *)
Lemma turn_range v a b :
  0 <= v < 2 ^ 8 ->
  0 <= Z.lor v (Z.lxor (byte_val a) (byte_val b)) mod 2 ^ 8 < 2 ^ 8.
Proof. intros _. apply Z.mod_pos_bound. done. Qed.

Lemma turn_zero v a b :
  0 <= v < 2 ^ 8 ->
  Z.lor v (Z.lxor (byte_val a) (byte_val b)) mod 2 ^ 8 = 0
  <-> v = 0 /\ a = b.
Proof.
  intros Hv.
  pose proof (lxor_range _ _ (byte_val_range a) (byte_val_range b)) as Hx.
  pose proof (lor_range _ _ Hv Hx) as Hl.
  rewrite Z.mod_small by done.
  rewrite Z.lor_eq_0_iff, Z.lxor_eq_0_iff. split.
  - intros [-> H]. split; [done |]. by apply byte_val_inj.
  - intros [-> ->]. done.
Qed.

Lemma accumulate_zero x : forall y v,
  length x = length y ->
  0 <= v < 2 ^ 8 ->
  accumulate v x y = 0 <-> v = 0 /\ x = y.
Proof.
  induction x as [|a x IH]; intros [|b y] v Hlen Hv; try discriminate Hlen.
  - simpl. intuition congruence.
  - cbn [accumulate]. injection Hlen as Hlen.
    rewrite (IH y _ Hlen (turn_range v a b Hv)), (turn_zero v a b Hv).
    intuition congruence.
Qed.

Lemma accumulate_range x : forall y v,
  0 <= v < 2 ^ 8 -> 0 <= accumulate v x y < 2 ^ 8.
Proof.
  induction x as [|a x IH]; intros [|b y] v Hv; try done.
  cbn [accumulate]. apply IH, turn_range, Hv.
Qed.

Lemma ConstantTimeByteEq_zero v :
  0 <= v < 2 ^ 8 -> ConstantTimeByteEq v 0 = 1 <-> v = 0.
Proof.
  intros Hv. unfold ConstantTimeByteEq.
  rewrite Z.lxor_0_r, Z.shiftr_div_pow2 by lia.
  destruct (decide (v = 0)) as [-> | Hne].
  - split; [done | intros _; reflexivity].
  - rewrite Z.mod_small by lia. rewrite Z.div_small by lia. lia.
Qed.

(** The comparison answers 1 exactly on equal slices. *)
Lemma ConstantTimeCompare_eq x y : ConstantTimeCompare x y = 1 <-> x = y.
Proof.
  unfold ConstantTimeCompare.
  destruct (length x =? length y)%nat eqn:E; simpl.
  - apply Nat.eqb_eq in E.
    rewrite (ConstantTimeByteEq_zero _ (accumulate_range x y 0 ltac:(lia))).
    rewrite (accumulate_zero x y 0 E) by lia. intuition.
  - apply Nat.eqb_neq in E. split; [discriminate |].
    intros ->. by destruct E.
Qed.

End ConstantTime.

Section AuthKeyFacts.
Import sshd.
Variable parse : list byte -> option PublicKey.

Lemma compareKeys_true (a b : PublicKey) :
  compareKeys a (Some b) = Returns true
  <-> Type_ a = Type_ b /\ Marshal a = Marshal b.
Proof.
  unfold compareKeys.
  destruct (decide (Type_ a = Type_ b)) as [Ht | Ht].
  - rewrite bool_decide_eq_true_2 by done. simpl.
    rewrite <- ConstantTimeCompare_eq, <- Z.eqb_eq.
    split; [intros [= ->]; done | intros [_ ->]; done].
  - rewrite bool_decide_eq_false_2 by done. simpl. intuition congruence.
Qed.

Lemma compareKeys_returns (a b : PublicKey) :
  exists r, compareKeys a (Some b) = Returns r.
Proof. unfold compareKeys. destruct (negb _); eauto. Qed.

Lemma AuthKey_unfold files key :
  AuthKey parse files key =
  match compareKeys key
          (parse (match files !! authorizedKeyFile with
                  | Some data => data
                  | None => []
                  end)) with
  | Panics => Panics
  | Returns true =>
      Returns (Some {| Extensions := {[ str "user" := str "builder" ]} |})
  | Returns false => Returns None
  end.
Proof.
  unfold AuthKey, ReadFile. by destruct (files !! authorizedKeyFile).
Qed.

End AuthKeyFacts.

(** C1.  With an authorized key configured (the key file is read and
    parsed), [AuthKey] returns the permission with the extension
    [user=builder] exactly when the presented key has the type and the
    marshaled bytes of the authorized key; for any other key, and so for
    every key that differs from the authorized one, it returns no
    permission. *)
Theorem AuthKey_grants_iff
  (parse : list byte -> option sshd.PublicKey)
  (files : gmap gostring (list byte)) (data : list byte)
  (allowed key : sshd.PublicKey) :
  files !! sshd.authorizedKeyFile = Some data ->
  parse data = Some allowed ->
  (sshd.AuthKey parse files key
   = sshd.Returns
       (Some {| sshd.Extensions := {[ str "user" := str "builder" ]} |})
   <-> sshd.Type_ key = sshd.Type_ allowed
       /\ sshd.Marshal key = sshd.Marshal allowed)
  /\ (~ (sshd.Type_ key = sshd.Type_ allowed
         /\ sshd.Marshal key = sshd.Marshal allowed) ->
      sshd.AuthKey parse files key = sshd.Returns None)
  /\ (key <> allowed -> sshd.AuthKey parse files key = sshd.Returns None).
Proof.
  intros Hfile Hparse.
  rewrite AuthKey_unfold, Hfile, Hparse.
  pose proof (compareKeys_true key allowed) as Htrue.
  destruct (compareKeys_returns key allowed) as [[|] Hr]; rewrite Hr in *.
  - repeat split; try solve [intuition congruence].
    intros Hne. destruct Hne. destruct key, allowed; simpl in *.
    destruct Htrue as [[-> ->] _]; done.
  - repeat split; try solve [intuition congruence].
Qed.

Lemma AuthKey_grants_iff_witness :
  let parse := fun data => Some (sshd.mkPublicKey (str "ssh-rsa") data) in
  let files : gmap gostring (list byte) :=
    {[ sshd.authorizedKeyFile := [Byte.x01; Byte.x02] ]} in
  sshd.AuthKey parse files (sshd.mkPublicKey (str "ssh-rsa") [Byte.x01; Byte.x02])
  = sshd.Returns
      (Some {| sshd.Extensions := {[ str "user" := str "builder" ]} |})
  /\ sshd.AuthKey parse files
       (sshd.mkPublicKey (str "ssh-rsa") [Byte.x01; Byte.x03])
     = sshd.Returns None.
Proof.
  intros parse files. split.
  - apply (AuthKey_grants_iff parse files [Byte.x01; Byte.x02]
             (sshd.mkPublicKey (str "ssh-rsa") [Byte.x01; Byte.x02])).
    + vm_compute. reflexivity.
    + reflexivity.
    + split; reflexivity.
  - apply (AuthKey_grants_iff parse files [Byte.x01; Byte.x02]
             (sshd.mkPublicKey (str "ssh-rsa") [Byte.x01; Byte.x02])).
    + vm_compute. reflexivity.
    + reflexivity.
    + discriminate.
Defined.

(** C2, on the code.  When the key file cannot be read (and the parser
    finds no key in the empty input), or its contents do not parse,
    [AuthKey] hands the nil key to [compareKeys], whose call of [Type()]
    on it panics: the decision does not return. *)
Theorem AuthKey_panics_without_key
  (parse : list byte -> option sshd.PublicKey)
  (files : gmap gostring (list byte)) (key : sshd.PublicKey) :
  (files !! sshd.authorizedKeyFile = None /\ parse [] = None)
  \/ (exists data,
        files !! sshd.authorizedKeyFile = Some data /\ parse data = None) ->
  sshd.AuthKey parse files key = sshd.Panics.
Proof.
  intros [[Hfile Hparse] | (data & Hfile & Hparse)];
    rewrite AuthKey_unfold, Hfile, Hparse; reflexivity.
Qed.

Lemma AuthKey_panics_without_key_witness :
  sshd.AuthKey (fun _ => None) ∅ (sshd.mkPublicKey (str "ssh-rsa") [Byte.x01])
  = sshd.Panics.
Proof.
  apply AuthKey_panics_without_key. left. split; reflexivity.
Defined.

(** ** Storage keys and URLs *)

Section Storage.
Import storage.
Variable env : gmap gostring gostring.

Lemma NewSlugBuilderInfo_fields appName slugName sha :
  NewSlugBuilderInfo env appName slugName sha =
  let endpoint :=
    str "http://" ++ Getenv env (str "DEIS_BUILDER_SERVICE_HOST")
    ++ str ":3000" in
  let tarKey := str "home/" ++ slugName ++ str "/tar" in
  let pushKey :=
    str "home/" ++ appName ++ str ":git-" ++ gitsha.Short sha ++ str "/push" in
  let slugKey :=
    str "home/" ++ appName ++ str ":git-" ++ gitsha.Short sha ++ str "/slug" in
  {| pushKey := pushKey;
     pushURL := endpoint ++ str "/git/" ++ pushKey;
     tarKey := tarKey;
     tarURL := endpoint ++ str "/git/" ++ tarKey;
     slugKey := slugKey;
     slugURL := endpoint ++ str "/git/" ++ slugKey |}.
Proof.
  unfold NewSlugBuilderInfo. cbn [fmt.Sprintf str
    list_ascii_of_string Ascii.eqb Bool.eqb andb].
  cbn zeta. rewrite !app_nil_r. simpl. reflexivity.
Qed.

Lemma key_inj (a1 a2 s1 s2 tail : gostring) :
  length s1 = length s2 ->
  str "home/" ++ a1 ++ str ":git-" ++ s1 ++ tail
  = str "home/" ++ a2 ++ str ":git-" ++ s2 ++ tail ->
  a1 = a2 /\ s1 = s2.
Proof.
  intros Hlen H. apply app_inv_head in H.
  rewrite !app_assoc in H. apply app_inv_tail in H.
  rewrite <- !app_assoc in H.
  apply app_inj_1 in H as [-> H].
  - split; [done |]. by apply app_inv_head in H.
  - apply (f_equal length) in H. rewrite !length_app in H. simpl in H. lia.
Qed.

End Storage.

(** C5.  [NewSlugBuilderInfo] returns the tar key [home/<slugName>/tar],
    the push key [home/<appName>:git-<short>/push], the slug key
    [home/<appName>:git-<short>/slug], and for each the URL made of the
    storage endpoint root, [/git/] and the key; the accessors return these
    fields. *)
Theorem NewSlugBuilderInfo_exact
  (env : gmap gostring gostring) (appName slugName : gostring)
  (sha : gitsha.SHA) :
  let endpoint :=
    str "http://" ++ storage.Getenv env (str "DEIS_BUILDER_SERVICE_HOST")
    ++ str ":3000" in
  let info := storage.NewSlugBuilderInfo env appName slugName sha in
  storage.TarKey info = str "home/" ++ slugName ++ str "/tar"
  /\ storage.PushKey info
     = str "home/" ++ appName ++ str ":git-" ++ gitsha.Short sha
       ++ str "/push"
  /\ storage.slugKey info
     = str "home/" ++ appName ++ str ":git-" ++ gitsha.Short sha
       ++ str "/slug"
  /\ storage.TarURL info = endpoint ++ str "/git/" ++ storage.TarKey info
  /\ storage.PushURL info = endpoint ++ str "/git/" ++ storage.PushKey info
  /\ storage.SlugURL info = endpoint ++ str "/git/" ++ storage.slugKey info.
Proof.
  intros endpoint info. unfold info.
  rewrite NewSlugBuilderInfo_fields. repeat split.
Qed.

(** C4, as the code has it.  In one environment: for two invocations whose
    short hashes have one length (the short hash is a prefix of fixed
    length) and whose pairs of application name and short hash differ, the
    push key, the push URL, the slug key and the slug URL all differ; the
    tar key and the tar URL are those of the slug name alone, equal exactly
    when the two slug names are; and equal inputs give equal keys and
    URLs. *)
Theorem NewSlugBuilderInfo_distinct
  (env : gmap gostring gostring) (app1 app2 slug1 slug2 : gostring)
  (sha1 sha2 : gitsha.SHA) :
  let i1 := storage.NewSlugBuilderInfo env app1 slug1 sha1 in
  let i2 := storage.NewSlugBuilderInfo env app2 slug2 sha2 in
  (length (gitsha.Short sha1) = length (gitsha.Short sha2) ->
   (app1, gitsha.Short sha1) <> (app2, gitsha.Short sha2) ->
   storage.pushKey i1 <> storage.pushKey i2
   /\ storage.pushURL i1 <> storage.pushURL i2
   /\ storage.slugKey i1 <> storage.slugKey i2
   /\ storage.slugURL i1 <> storage.slugURL i2)
  /\ (storage.tarKey i1 = storage.tarKey i2 <-> slug1 = slug2)
  /\ (storage.tarURL i1 = storage.tarURL i2 <-> slug1 = slug2)
  /\ (app1 = app2 -> slug1 = slug2 ->
      gitsha.Short sha1 = gitsha.Short sha2 -> i1 = i2).
Proof.
  intros i1 i2. unfold i1, i2. rewrite !NewSlugBuilderInfo_fields.
  cbn [storage.pushKey storage.pushURL storage.slugKey storage.slugURL
       storage.tarKey storage.tarURL].
  split; [intros Hlen Hne | repeat split].
  - assert (forall tail : gostring,
             str "home/" ++ app1 ++ str ":git-" ++ gitsha.Short sha1 ++ tail
             <> str "home/" ++ app2 ++ str ":git-" ++ gitsha.Short sha2
                ++ tail) as Hkey.
    { intros tail H. destruct (key_inj _ _ _ _ _ Hlen H) as [-> E].
      apply Hne. by rewrite E. }
    repeat split; try apply Hkey.
    + intros H. do 2 apply app_inv_head in H. by apply Hkey in H.
    + intros H. do 2 apply app_inv_head in H. by apply Hkey in H.
  - intros H. apply app_inv_head in H. by apply app_inv_tail in H.
  - by intros ->.
  - intros H. do 3 apply app_inv_head in H. by apply app_inv_tail in H.
  - by intros ->.
  - intros -> -> ->. reflexivity.
Qed.

Lemma NewSlugBuilderInfo_distinct_witness :
  storage.pushKey
    (storage.NewSlugBuilderInfo ∅ (str "demo") (str "demo")
       (gitsha.mkSHA (str "12345678")))
  <> storage.pushKey
       (storage.NewSlugBuilderInfo ∅ (str "demo") (str "demo")
          (gitsha.mkSHA (str "abcdef12"))).
Proof.
  apply (NewSlugBuilderInfo_distinct ∅ (str "demo") (str "demo")
           (str "demo") (str "demo")
           (gitsha.mkSHA (str "12345678")) (gitsha.mkSHA (str "abcdef12"))).
  - reflexivity.
  - discriminate.
Defined.

(** C4 as the spec words it fails for the tar location: two commits of one
    application, pushed under one slug name, share their tar key and their
    tar URL. *)
Lemma NewSlugBuilderInfo_tar_collides :
  let i1 := storage.NewSlugBuilderInfo ∅ (str "demo") (str "demo")
              (gitsha.mkSHA (str "12345678")) in
  let i2 := storage.NewSlugBuilderInfo ∅ (str "demo") (str "demo")
              (gitsha.mkSHA (str "abcdef12")) in
  (str "demo", str "12345678") <> (str "demo", str "abcdef12")
  /\ storage.tarKey i1 = storage.tarKey i2
  /\ storage.tarURL i1 = storage.tarURL i2
  /\ storage.tarKey i1 = str "home/demo/tar".
Proof.
  repeat split. discriminate.
Qed.

(** The short hashes have to be of one length for the push and slug keys
    to tell the pairs apart: texts of different lengths, as no two short
    hashes are, can give one key. *)
Remark pushKey_needs_one_length :
  storage.pushKey
    (storage.NewSlugBuilderInfo ∅ (str "a:git-b") (str "s")
       (gitsha.mkSHA (str "c")))
  = storage.pushKey
      (storage.NewSlugBuilderInfo ∅ (str "a") (str "s")
         (gitsha.mkSHA (str "b:git-c"))).
Proof. reflexivity. Qed.

(** ** [readLine] *)

Section ReadLine.
Import strings.
Implicit Types s cur a b c line : gostring.

Lemma elem_of_rev (x : ascii) s : x ∈ rev s <-> x ∈ s.
Proof. rewrite !list_elem_of_In. symmetry. apply in_rev. Qed.

Lemma split_step cur (x : ascii) s :
  split_from [sp] 0 cur (x :: s) =
  if bool_decide (x = sp) then rev cur :: split_from [sp] 0 [] s
  else split_from [sp] 0 (x :: cur) s.
Proof.
  cbn [split_from length Nat.sub]. by rewrite HasPrefix_single.
Qed.

Lemma split_nonempty s : forall cur, split_from [sp] 0 cur s <> [].
Proof.
  induction s as [|x s IH]; intros cur; [done |].
  rewrite split_step. destruct (bool_decide (x = sp)); [done | apply IH].
Qed.

Lemma Join_cons a (l : list gostring) :
  l <> [] -> Join (a :: l) [sp] = a ++ [sp] ++ Join l [sp].
Proof. destruct l; [done |]. reflexivity. Qed.

(** Joining the tokens with spaces gives the line back. *)
Lemma Join_split s : forall cur,
  Join (split_from [sp] 0 cur s) [sp] = rev cur ++ s.
Proof.
  induction s as [|x s IH]; intros cur.
  - simpl. by rewrite app_nil_r.
  - rewrite split_step. case_bool_decide as Hx.
    + rewrite Join_cons by apply split_nonempty.
      rewrite IH. subst x. reflexivity.
    + rewrite IH. simpl. by rewrite <- app_assoc.
Qed.

(** No token holds a space. *)
Lemma split_no_space s : forall cur,
  sp ∉ cur -> Forall (fun t => sp ∉ t) (split_from [sp] 0 cur s).
Proof.
  induction s as [|x s IH]; intros cur Hcur.
  - constructor; [| constructor]. by rewrite elem_of_rev.
  - rewrite split_step. case_bool_decide as Hx.
    + constructor; [by rewrite elem_of_rev |]. apply IH. apply not_elem_of_nil.
    + apply IH. rewrite not_elem_of_cons. naive_solver.
Qed.

(** A run without space is read into the current token. *)
Lemma split_run a : forall cur s,
  sp ∉ a ->
  split_from [sp] 0 cur (a ++ s) = split_from [sp] 0 (rev a ++ cur) s.
Proof.
  induction a as [|x a IH]; intros cur s Ha; [done |].
  apply not_elem_of_cons in Ha as [Hx Ha].
  rewrite <- app_comm_cons, split_step.
  rewrite bool_decide_eq_false_2 by done.
  rewrite IH by done. simpl. by rewrite <- app_assoc.
Qed.

Lemma split_token a s :
  sp ∉ a ->
  split_from [sp] 0 [] (a ++ sp :: s) = a :: split_from [sp] 0 [] s.
Proof.
  intros Ha. rewrite split_run by done. rewrite split_step.
  rewrite bool_decide_eq_true_2 by done.
  by rewrite app_nil_r, rev_involutive.
Qed.

Lemma split_last a :
  sp ∉ a -> split_from [sp] 0 [] a = [a].
Proof.
  intros Ha. rewrite <- (app_nil_r a) at 1. rewrite split_run by done.
  simpl. by rewrite app_nil_r, rev_involutive.
Qed.

(** Three tokens: the line is the three, with one space between them. *)
Lemma Split_three line a b c :
  Split line (str " ") = [a; b; c]
  <-> line = a ++ str " " ++ b ++ str " " ++ c
      /\ (sp ∉ a) /\ (sp ∉ b) /\ (sp ∉ c).
Proof.
  change (Split line (str " ")) with (split_from [sp] 0 [] line).
  change (str " ") with [sp]. split.
  - intros H.
    pose proof (Join_split line []) as HJ.
    pose proof (split_no_space line [] (not_elem_of_nil sp)) as HF.
    rewrite H in HJ, HF. simpl in HJ.
    apply Forall_cons in HF as [Ha HF].
    apply Forall_cons in HF as [Hb HF].
    apply Forall_cons in HF as [Hc _].
    rewrite <- HJ. done.
  - intros (-> & Ha & Hb & Hc). simpl.
    rewrite split_token by done.
    rewrite split_token by done.
    by rewrite split_last.
Qed.

End ReadLine.

(** C6.  [readLine] succeeds exactly when splitting the line on single
    spaces gives three tokens, and then returns the three in order; the
    line is then the three tokens with one space between them, and no
    token holds a space.  For any other number of tokens it returns the
    error [malformed line [<line>]].  The line
    [abc123 def456 refs/heads/master] is read as its three words, and
    [abc123 def456] and [a b c d] are rejected. *)
Theorem readLine_spec (line : gostring) :
  (forall a b c,
     gitreceive.readLine line = Ok (a, b, c)
     <-> strings.Split line (str " ") = [a; b; c])
  /\ (forall a b c,
        gitreceive.readLine line = Ok (a, b, c)
        <-> line = a ++ str " " ++ b ++ str " " ++ c
            /\ (sp ∉ a) /\ (sp ∉ b) /\ (sp ∉ c))
  /\ (is_err (gitreceive.readLine line) = false
       <-> length (strings.Split line (str " ")) = 3)
  /\ (length (strings.Split line (str " ")) <> 3 ->
       gitreceive.readLine line
       = Err (str "malformed line [" ++ line ++ str "]"))
  /\ gitreceive.readLine (str "abc123 def456 refs/heads/master")
      = Ok (str "abc123", str "def456", str "refs/heads/master")
  /\ gitreceive.readLine (str "abc123 def456")
      = Err (str "malformed line [abc123 def456]")
  /\ gitreceive.readLine (str "a b c d")
      = Err (str "malformed line [a b c d]").
Proof.
  assert (forall a b c,
            gitreceive.readLine line = Ok (a, b, c)
            <-> strings.Split line (str " ") = [a; b; c]) as Hsplit.
  { intros a b c. unfold gitreceive.readLine.
    destruct (strings.Split line (str " ")) as [|x [|y [|z [|u l]]]];
      simpl; split; intros H; try discriminate H.
    - by injection H as -> -> ->.
    - by injection H as -> -> ->. }
  split; [exact Hsplit |].
  split; [intros a b c; by rewrite Hsplit, Split_three |].
  split.
  { unfold gitreceive.readLine.
    destruct (length (strings.Split line (str " ")) =? 3)%nat eqn:E; simpl.
    - apply Nat.eqb_eq in E. done.
    - apply Nat.eqb_neq in E. split; [discriminate | done]. }
  split.
  { intros Hlen. unfold gitreceive.readLine.
    apply Nat.eqb_neq in Hlen. rewrite Hlen. reflexivity. }
  repeat split.
Qed.

Lemma readLine_spec_witness :
  gitreceive.readLine (str "a b")
  = Err (str "malformed line [" ++ str "a b" ++ str "]").
Proof.
  apply (readLine_spec (str "a b")). vm_compute. discriminate.
Defined.

(** ** [createRepo], one thread *)

Section CreateRepo.
Import git.
Implicit Types w : World.
Implicit Types o : Oracle.
Implicit Types repoPath : gostring.

Lemma Stat_NotExist w repoPath :
  Stat w repoPath = StatNotExist
  <-> stat_err w !! repoPath = None /\ nodes w !! repoPath = None.
Proof.
  unfold Stat. destruct (stat_err w !! repoPath);
    [| destruct (nodes w !! repoPath) as [[|]|]]; intuition congruence.
Qed.

Lemma Stat_Dir w repoPath :
  Stat w repoPath = StatDir
  <-> stat_err w !! repoPath = None /\ nodes w !! repoPath = Some Dir.
Proof.
  unfold Stat. destruct (stat_err w !! repoPath);
    [| destruct (nodes w !! repoPath) as [[|]|]]; intuition congruence.
Qed.

Lemma path_extended repoPath (x : gostring) :
  x <> [] -> repoPath ++ x <> repoPath.
Proof.
  intros Hx H. apply (f_equal length) in H. rewrite length_app in H.
  destruct x; [done |]. simpl in H. lia.
Qed.

(** The entries of a bare repository lie below its directory. *)
Lemma bareLayout_below repoPath w :
  nodes (addBare repoPath w) !! repoPath = nodes w !! repoPath
  /\ stat_err (addBare repoPath w) = stat_err w
  /\ log (addBare repoPath w) = log w.
Proof.
  unfold addBare, bareLayout. cbn [fold_right put nodes stat_err log fst snd].
  repeat split.
  rewrite !lookup_insert_ne by (apply path_extended; discriminate).
  reflexivity.
Qed.

Lemma MkdirAll_Stat o repoPath w :
  mkdir_err o = None ->
  Stat w repoPath = StatNotExist ->
  Stat (snd (MkdirAll o repoPath w)) repoPath = StatDir.
Proof.
  intros Ho Hs. apply Stat_NotExist in Hs as [He _].
  unfold MkdirAll. rewrite Ho. apply Stat_Dir. simpl.
  split; [done | apply lookup_insert_eq].
Qed.

Lemma Stat_record e w repoPath : Stat (record e w) repoPath = Stat w repoPath.
Proof. reflexivity. Qed.

(** [git init --bare], run in a directory, leaves it a directory, whether
    it fails or not. *)
Lemma gitInitBare_Stat o repoPath w :
  Stat w repoPath = StatDir ->
  Stat (snd (gitInitBare o repoPath w)) repoPath = StatDir.
Proof.
  intros Hs. unfold gitInitBare.
  destruct (git_init_err o); cbn [snd]; rewrite Stat_record; [done |].
  apply Stat_Dir in Hs as [He Hn]. apply Stat_Dir.
  destruct (bareLayout_below repoPath w) as (-> & -> & _). done.
Qed.

Lemma gitInits_app repoPath l1 l2 :
  gitInits repoPath (l1 ++ l2) = gitInits repoPath l1 + gitInits repoPath l2.
Proof. unfold gitInits. by rewrite filter_app, length_app. Qed.

Lemma gitInitBare_log o repoPath w :
  exists ok,
    log (snd (gitInitBare o repoPath w)) = log w ++ [EvGitInit repoPath ok].
Proof.
  unfold gitInitBare. destruct (git_init_err o); cbn [snd record log].
  - by exists false.
  - exists true. by destruct (bareLayout_below repoPath w) as (_ & _ & ->).
Qed.

Lemma MkdirAll_log o repoPath w :
  log (snd (MkdirAll o repoPath w))
  = log w ++ [EvMkdirAll repoPath (bool_decide (mkdir_err o = None))].
Proof. unfold MkdirAll. by destruct (mkdir_err o). Qed.

Lemma gitInits_one repoPath ok : gitInits repoPath [EvGitInit repoPath ok] = 1.
Proof.
  unfold gitInits. rewrite filter_cons, decide_True; [done |].
  simpl. by apply bool_decide_eq_true_2.
Qed.

Lemma gitInits_mkdir repoPath p ok : gitInits repoPath [EvMkdirAll p ok] = 0.
Proof. unfold gitInits. by rewrite filter_cons, decide_False. Qed.

End CreateRepo.

(** C9.  When a first call of [createRepo] returns [true], it found the
    path absent, made the directory and ran [git init --bare] in it.  A
    second call on the same path then returns [false] without error and
    leaves the world as it is: nodes and trace unchanged, so no directory
    is made and [git init] is not run. *)
Theorem createRepo_idempotent
  (o1 o2 : git.Oracle) (repoPath : gostring) (w w1 : git.World) :
  git.createRepo o1 repoPath w = (Ok true, w1) ->
  (git.Stat w repoPath = git.StatNotExist
   /\ git.Stat w1 repoPath = git.StatDir
   /\ git.log w1
      = git.log w
        ++ [git.EvMkdirAll repoPath true; git.EvGitInit repoPath true])
  /\ git.createRepo o2 repoPath w1 = (Ok false, w1).
Proof.
  intros H. unfold git.createRepo in H.
  destruct (git.Stat w repoPath) eqn:Hs; try discriminate H.
  unfold git.MkdirAll in H.
  destruct (git.mkdir_err o1) eqn:Hm; [discriminate H |].
  unfold git.gitInitBare in H.
  destruct (git.git_init_err o1) eqn:Hg; [discriminate H |].
  injection H as <-.
  assert (git.Stat
            (git.record (git.EvGitInit repoPath true)
               (git.addBare repoPath
                  (git.record (git.EvMkdirAll repoPath true)
                     (git.put repoPath git.Dir w)))) repoPath
          = git.StatDir) as Hdir.
  { pose proof (gitInitBare_Stat o1 repoPath
                  (git.record (git.EvMkdirAll repoPath true)
                     (git.put repoPath git.Dir w))) as HG.
    unfold git.gitInitBare in HG. rewrite Hg in HG. apply HG.
    pose proof (MkdirAll_Stat o1 repoPath w Hm Hs) as HM.
    unfold git.MkdirAll in HM. by rewrite Hm in HM. }
  split; [split; [done | split; [done |]] |].
  - cbn [git.record git.log].
    destruct (bareLayout_below repoPath
                (git.record (git.EvMkdirAll repoPath true)
                   (git.put repoPath git.Dir w))) as (_ & _ & ->).
    cbn [git.record git.put git.log]. by rewrite <- app_assoc.
  - unfold git.createRepo. by rewrite Hdir.
Qed.

Lemma createRepo_idempotent_witness :
  let w := git.mkWorld ∅ ∅ [] in
  let o := git.mkOracle None None None None None None [] None [] [] in
  git.createRepo o (str "/home/git/demo.git")
    (snd (git.createRepo o (str "/home/git/demo.git") w))
  = (Ok false, snd (git.createRepo o (str "/home/git/demo.git") w)).
Proof.
  intros w o.
  apply (createRepo_idempotent o o (str "/home/git/demo.git") w).
  vm_compute. reflexivity.
Defined.

(** ** [Receive] and its subprocess *)

Section ReceiveFacts.
Import git.
Variable filepathJoin : list gostring -> gostring.
Implicit Types w : World.
Implicit Types o : Oracle.

(** A failure of [cmd.Start()]: the message holds the buffer, which is
    still empty. *)
Lemma runShell_start_error o operation repo gitHome fingerprint conn w e :
  pipe_err o = None ->
  start_err o = Some e ->
  fst (runShell o operation repo gitHome fingerprint conn w)
  = Err (str "Failed to start git pre-receive hook: " ++ e ++ str " ("
         ++ [] ++ str ")").
Proof.
  intros Hp Hs. unfold runShell. rewrite Hp, Hs. reflexivity.
Qed.

(** A failure of [cmd.Wait()]: the message holds what the subprocess wrote
    on its standard error. *)
Lemma runShell_wait_error o operation repo gitHome fingerprint conn w e :
  pipe_err o = None ->
  start_err o = None ->
  copy_err o = None ->
  wait_err o = Some e ->
  fst (runShell o operation repo gitHome fingerprint conn w)
  = Err (str "Failed to run git pre-receive hook: "
         ++ (copy_stderr o ++ wait_stderr o) ++ str " (" ++ e ++ str ")")
  /\ forall msg,
       fst (runShell o operation repo gitHome fingerprint conn w) = Err msg ->
       strings.Contains msg (copy_stderr o ++ wait_stderr o) = true.
Proof.
  intros Hp Hs Hc Hw.
  assert (fst (runShell o operation repo gitHome fingerprint conn w)
          = Err (str "Failed to run git pre-receive hook: "
                 ++ (copy_stderr o ++ wait_stderr o) ++ str " (" ++ e
                 ++ str ")")) as Hmsg.
  { unfold runShell. rewrite Hp, Hs, Hc, Hw. reflexivity. }
  split; [exact Hmsg |].
  intros msg H. rewrite Hmsg in H. injection H as <-.
  apply Contains_true.
  exists (str "Failed to run git pre-receive hook: "),
         (str " (" ++ e ++ str ")").
  reflexivity.
Qed.

(** A failure of [io.Copy]: the message is made of the error alone, whatever
    the subprocess has written on its standard error. *)
Lemma runShell_copy_error o operation repo gitHome fingerprint conn w e :
  pipe_err o = None ->
  start_err o = None ->
  copy_err o = Some e ->
  fst (runShell o operation repo gitHome fingerprint conn w)
  = Err (str "Failed to write git objects into the git pre-receive hook ("
         ++ e ++ str ")").
Proof.
  intros Hp Hs Hc. unfold runShell. rewrite Hp, Hs, Hc. reflexivity.
Qed.

Lemma starts_app l1 l2 : starts (l1 ++ l2) = starts l1 + starts l2.
Proof. unfold starts. by rewrite filter_app, length_app. Qed.

Lemma starts_one (e : event) : starts [e] = if isStart e then 1 else 0.
Proof.
  unfold starts. rewrite filter_cons.
  destruct (isStart e); [by rewrite decide_True | by rewrite decide_False].
Qed.

(** The subprocess is started at most once: nothing is tried again. *)
Lemma runShell_starts_once o operation repo gitHome fingerprint conn w :
  starts (log (snd (runShell o operation repo gitHome fingerprint conn w)))
  <= starts (log w) + 1.
Proof.
  unfold runShell.
  destruct (pipe_err o); [cbn [snd]; lia |].
  destruct (start_err o);
    [cbn [snd record log]; rewrite starts_app, starts_one;
     cbn [isStart]; lia |].
  destruct (copy_err o);
    [| destruct (wait_err o)];
    cbn [snd record log]; rewrite !starts_app, !starts_one;
    cbn [isStart]; lia.
Qed.

End ReceiveFacts.

(** C8, on the code.  A push whose subprocess starts, writes
    [fatal: no space left] on its standard error, and whose copy of the
    channel into its standard input then fails with [broken pipe]:
    [Receive] returns the error
    [Failed to write git objects into the git pre-receive hook (broken pipe)],
    which does not hold what the subprocess wrote; the subprocess was
    started once. *)
Theorem Receive_copy_error_without_stderr :
  let o :=
    git.mkOracle None None None None None (Some (str "broken pipe"))
      (str "fatal: no space left") None [] [] in
  let join := fun l => strings.Join l (str "/") in
  let r :=
    git.Receive join o [] (str "/demo.git") (str "git-receive-pack")
      (str "/home/git") (str "aa:bb") (str "0 0 0 0")
      (git.mkWorld ∅ ∅ []) in
  fst r
  = Err (str "Failed to write git objects into the git pre-receive hook (broken pipe)")
  /\ (forall msg, fst r = Err msg ->
        strings.Contains msg (git.copy_stderr o) = false)
  /\ git.starts (git.log (snd r)) = 1.
Proof.
  intros o join r.
  assert (fst r
          = Err (str "Failed to write git objects into the git pre-receive hook (broken pipe)"))
    as Hr by (vm_compute; reflexivity).
  split; [exact Hr |]. split.
  - intros msg H. rewrite Hr in H. injection H as <-.
    vm_compute. reflexivity.
  - vm_compute. reflexivity.
Qed.

(** ** [createRepo], many threads *)

Section Threads.
Import git.
Variable repoPath : gostring.
Implicit Types s : System.
Implicit Types w : World.
Implicit Types p q : pc.

Lemma lookup_move s i j p q x w l :
  threads s !! i = Some q ->
  threads (move i p w l s) !! j = Some x ->
  (j = i /\ x = p) \/ (j <> i /\ threads s !! j = Some x).
Proof.
  intros Hi Hj. cbn [move threads] in Hj.
  destruct (decide (j = i)) as [-> | Hne].
  - rewrite list_lookup_insert_eq in Hj by (by eapply lookup_lt_Some).
    left. by injection Hj.
  - rewrite list_lookup_insert_ne in Hj by done. by right.
Qed.

Lemma lookup_move_self s i p q w l :
  threads s !! i = Some q -> threads (move i p w l s) !! i = Some p.
Proof.
  intros Hi. cbn [move threads].
  apply list_lookup_insert_eq. by eapply lookup_lt_Some.
Qed.

Lemma informed_idle w q : holding q = false -> informed repoPath w q.
Proof. by destruct q. Qed.

(** Beside the owner of the mutex, no thread is under the lock. *)
Lemma others_idle s i p :
  exclusive s -> threads s !! i = Some p -> holding p = true ->
  forall j q, j <> i -> threads s !! j = Some q -> holding q = false.
Proof.
  intros [Hex _] Hi Hp j q Hne Hj.
  destruct (holding q) eqn:Hq; [| done].
  pose proof (Hex i p Hi Hp) as H1. pose proof (Hex j q Hj Hq) as H2.
  rewrite H1 in H2. by injection H2 as ->.
Qed.

Lemma all_idle s :
  exclusive s -> createLock s = None ->
  forall j q, threads s !! j = Some q -> holding q = false.
Proof.
  intros [Hex _] Hl j q Hj. destruct (holding q) eqn:Hq; [| done].
  rewrite (Hex j q Hj Hq) in Hl. discriminate Hl.
Qed.

Lemma exclusive_acquire s i w :
  exclusive s -> threads s !! i = Some AtLock -> createLock s = None ->
  exclusive (move i AtStat w (Some i) s).
Proof.
  intros Hex Hi Hl. split.
  - intros j x Hj Hx.
    destruct (lookup_move _ _ _ _ _ _ _ _ Hi Hj) as [[-> _] | [_ Hj']];
      [done |].
    by rewrite (all_idle s Hex Hl j x Hj') in Hx.
  - intros h [= <-]. exists AtStat. split; [| done].
    by eapply lookup_move_self.
Qed.

Lemma exclusive_advance s i p p' w :
  exclusive s -> threads s !! i = Some p -> holding p = true ->
  holding p' = true ->
  exclusive (move i p' w (createLock s) s).
Proof.
  intros Hex Hi Hp Hp'. split.
  - intros j x Hj Hx. cbn [move createLock].
    destruct (lookup_move _ _ _ _ _ _ _ _ Hi Hj) as [[-> _] | [Hne Hj']].
    + by apply (proj1 Hex i p).
    + by rewrite (others_idle s i p Hex Hi Hp j x Hne Hj') in Hx.
  - intros h Hh. cbn [move createLock] in Hh.
    pose proof (proj1 Hex i p Hi Hp) as Hl. rewrite Hl in Hh.
    injection Hh as <-. exists p'. split; [| done].
    by eapply lookup_move_self.
Qed.

Lemma exclusive_release s i p r w :
  exclusive s -> threads s !! i = Some p -> holding p = true ->
  exclusive (move i (Finished r) w None s).
Proof.
  intros Hex Hi Hp. split.
  - intros j x Hj Hx.
    destruct (lookup_move _ _ _ _ _ _ _ _ Hi Hj) as [[_ ->] | [Hne Hj']];
      [done |].
    by rewrite (others_idle s i p Hex Hi Hp j x Hne Hj') in Hx.
  - intros h Hh. discriminate Hh.
Qed.

(** After a step of thread [i], every thread is informed, as soon as
    thread [i] is, the others being outside the lock. *)
Lemma informed_move s i p p' w l :
  threads s !! i = Some p ->
  (forall j q, j <> i -> threads s !! j = Some q -> holding q = false) ->
  informed repoPath w p' ->
  forall j x, threads (move i p' w l s) !! j = Some x ->
              informed repoPath (world (move i p' w l s)) x.
Proof.
  intros Hi Hidle Hp' j x Hj. cbn [move world].
  destruct (lookup_move _ _ _ _ _ _ _ _ Hi Hj) as [[_ ->] | [Hne Hj']];
    [done |].
  apply informed_idle. by eapply Hidle.
Qed.

Lemma afterStat_holding r : holding (afterStat r) = true.
Proof. by destruct r. Qed.

Lemma afterCall_holding e p : holding p = true -> holding (afterCall e p) = true.
Proof. by destruct e. Qed.

Lemma invariant_step s s' :
  invariant repoPath s -> step repoPath s s' -> invariant repoPath s'.
Proof.
  intros (Hex & Hinf & Hle & Hone) Hstep.
  destruct Hstep as [i s Hi Hl | i s Hi | i s o Hi | i s o Hi | i s r Hi].
  - split; [by apply exclusive_acquire |].
    split; [| done].
    apply (informed_move s i AtLock); [done | | done].
    intros j q _. by apply all_idle.
  - split; [eapply exclusive_advance; eauto using afterStat_holding |].
    split; [| done].
    apply (informed_move s i AtStat); [done | by eapply others_idle |].
    destruct (Stat (world s) repoPath) eqn:Hs; try done.
    split; [done |].
    destruct (decide (gitInits repoPath (log (world s)) = 1)) as [H1 | H1];
      [| lia].
    apply Hone in H1. discriminate H1.
  - destruct (Hinf i _ Hi) as [Hs H0].
    assert (gitInits repoPath (log (snd (MkdirAll o repoPath (world s)))) = 0)
      as H0'.
    { by rewrite MkdirAll_log, gitInits_app, gitInits_mkdir, H0. }
    split; [eapply exclusive_advance; eauto using afterCall_holding |].
    split.
    + apply (informed_move s i AtMkdirAll); [done | by eapply others_idle |].
      unfold afterCall, MkdirAll in *.
      destruct (mkdir_err o) eqn:Ho; [done |].
      split; [| done]. cbn [fst snd].
      pose proof (MkdirAll_Stat o repoPath (world s) Ho Hs) as HS.
      unfold MkdirAll in HS. by rewrite Ho in HS.
    + cbn [move world]. rewrite H0'. split; [lia | lia].
  - destruct (Hinf i _ Hi) as [Hs H0].
    destruct (gitInitBare_log o repoPath (world s)) as [ok Hlog].
    assert (gitInits repoPath (log (snd (gitInitBare o repoPath (world s))))
            = 1) as H1.
    { by rewrite Hlog, gitInits_app, gitInits_one, H0. }
    split; [eapply exclusive_advance; eauto using afterCall_holding |].
    split.
    + apply (informed_move s i AtGitInit); [done | by eapply others_idle |].
      unfold afterCall. by destruct (fst _).
    + cbn [move world]. rewrite H1. split; [lia |].
      intros _. by apply gitInitBare_Stat.
  - split; [by eapply exclusive_release |].
    split; [| done].
    apply (informed_move s i (AtUnlock r)); [done | by eapply others_idle |].
    done.
Qed.

Lemma pending_step s s' :
  invariant repoPath s -> pending repoPath s -> step repoPath s s' ->
  pending repoPath s'.
Proof.
  intros (Hex & Hinf & Hle & Hone) Hpend Hstep.
  destruct Hstep as [i s Hi Hl | i s Hi | i s o Hi | i s o Hi | i s r Hi];
    intros H0 Hfail; cbn [move world] in H0, Hfail.
  - destruct (Hpend H0 Hfail) as [Hall Hcase]. split.
    + intros j x Hj.
      destruct (lookup_move _ _ _ _ _ _ _ _ Hi Hj) as [[_ ->] | [_ Hj']];
        [done | by eapply Hall].
    + destruct Hcase as [Hs | [k Hk]]; [by left | right].
      exists k. cbn [move threads].
      rewrite list_lookup_insert_ne; [done |].
      intros ->. rewrite Hi in Hk. discriminate Hk.
  - destruct (Hpend H0 Hfail) as [Hall Hcase].
    assert (Stat (world s) repoPath = StatNotExist) as Hs.
    { destruct Hcase as [Hs | [k Hk]]; [done |].
      pose proof (proj1 Hex i AtStat Hi eq_refl) as H1.
      pose proof (proj1 Hex k AtGitInit Hk eq_refl) as H2.
      rewrite H1 in H2. injection H2 as ->.
      rewrite Hi in Hk. discriminate Hk. }
    split; [| by left].
    intros j x Hj.
    destruct (lookup_move _ _ _ _ _ _ _ _ Hi Hj) as [[_ ->] | [_ Hj']];
      [by rewrite Hs | by eapply Hall].
  - rewrite MkdirAll_log in H0, Hfail.
    rewrite gitInits_app, gitInits_mkdir in H0.
    apply not_elem_of_app in Hfail as [Hfail Hnow].
    destruct (mkdir_err o) eqn:Ho.
    { destruct Hnow. rewrite bool_decide_eq_false_2 by done.
      apply list_elem_of_singleton. reflexivity. }
    destruct (Hpend ltac:(lia) Hfail) as [Hall _]. split.
    + intros j x Hj.
      destruct (lookup_move _ _ _ _ _ _ _ _ Hi Hj) as [[_ ->] | [_ Hj']];
        [| by eapply Hall].
      unfold MkdirAll. by rewrite Ho.
    + right. exists i. erewrite lookup_move_self by done.
      unfold MkdirAll. by rewrite Ho.
  - destruct (gitInitBare_log o repoPath (world s)) as [ok Hlog].
    rewrite Hlog, gitInits_app, gitInits_one in H0. lia.
  - destruct (Hpend H0 Hfail) as [Hall _].
    pose proof (Hall i _ Hi) as Hu. discriminate Hu.
Qed.

Lemma threads_length s s' :
  step repoPath s s' -> length (threads s') = length (threads s).
Proof.
  intros Hstep. destruct Hstep; cbn [move threads]; apply length_insert.
Qed.

Lemma invariant_start n fs errs : invariant repoPath (start n fs errs).
Proof.
  split; [split |].
  - intros i p Hi Hp. apply lookup_replicate in Hi as [-> _]. done.
  - intros h Hh. discriminate Hh.
  - split; [| split].
    + intros i p Hi. apply lookup_replicate in Hi as [-> _]. done.
    + cbn. lia.
    + intros H. discriminate H.
Qed.

Lemma pending_start n fs errs :
  Stat (world (start n fs errs)) repoPath = StatNotExist ->
  pending repoPath (start n fs errs).
Proof.
  intros Hs _ _. split; [| by left].
  intros i p Hi. apply lookup_replicate in Hi as [-> _]. done.
Qed.

Lemma list_sum_insert (f : pc -> nat) (l : list pc) : forall i p q,
  l !! i = Some p ->
  list_sum (map f (<[i := q]> l)) + f p = list_sum (map f l) + f q.
Proof.
  induction l as [|x l IH]; intros [|i] p q Hi; try discriminate Hi.
  - injection Hi as ->. simpl. lia.
  - simpl in *. specialize (IH i p q Hi). lia.
Qed.

(** Every step takes one call off the work left: the threads cannot run
    for ever. *)
Lemma step_decreases s s' : step repoPath s s' -> work s' < work s.
Proof.
  intros Hstep.
  destruct Hstep as [i s Hi Hl | i s Hi | i s o Hi | i s o Hi | i s r Hi];
    unfold work; cbn [move threads];
    match goal with
    | |- list_sum (map remaining (<[_ := ?q]> _)) < _ =>
        pose proof (list_sum_insert remaining _ _ _ q Hi) as Hsum
    end;
    cbn [remaining] in Hsum.
  - lia.
  - destruct (Stat (world s) repoPath); cbn [afterStat remaining] in *; lia.
  - destruct (fst (MkdirAll o repoPath (world s)));
      cbn [afterCall remaining] in *; lia.
  - destruct (fst (gitInitBare o repoPath (world s)));
      cbn [afterCall remaining] in *; lia.
  - lia.
Qed.

(** A thread under the lock can make its next call. *)
Lemma holder_steps s i p :
  threads s !! i = Some p -> holding p = true -> exists s', step repoPath s s'.
Proof.
  pose (o := mkOracle None None None None None None [] None [] []).
  intros Hi Hp. destruct p; try discriminate Hp.
  - eexists. by apply step_Stat.
  - eexists. by apply (step_MkdirAll repoPath i s o).
  - eexists. by apply (step_GitInit repoPath i s o).
  - eexists. by eapply step_Unlock.
Qed.

(** While a thread has not returned, some thread can take a step: the
    threads do not block each other for ever. *)
Lemma step_progress s i p :
  exclusive s -> threads s !! i = Some p -> finished p = false ->
  exists s', step repoPath s s'.
Proof.
  intros Hex Hi Hp. destruct (holding p) eqn:Hh.
  - by eapply holder_steps.
  - destruct p; try discriminate.
    destruct (createLock s) as [h |] eqn:Hl.
    + destruct (proj2 Hex h Hl) as (q & Hq & Hqh). by eapply holder_steps.
    + eexists. by apply step_Lock.
Qed.

(** Every state the threads can reach. *)
Lemma reachable_invariant n fs errs s :
  rtc (step repoPath) (start n fs errs) s ->
  invariant repoPath s
  /\ length (threads s) = n
  /\ (Stat (world (start n fs errs)) repoPath = StatNotExist ->
      pending repoPath s).
Proof.
  revert s. apply rtc_ind_r.
  - split; [apply invariant_start |]. split; [apply length_replicate |].
    apply pending_start.
  - intros y z Hxy Hyz (Hinv & Hlen & Hpend). split; [| split].
    + by eapply invariant_step.
    + by rewrite (threads_length _ _ Hyz).
    + intros Hs. eapply pending_step; eauto.
Qed.

Lemma reachable_progress n fs errs s i p :
  rtc (step repoPath) (start n fs errs) s ->
  threads s !! i = Some p -> finished p = false ->
  exists s', step repoPath s s'.
Proof.
  intros Hrtc. destruct (reachable_invariant n fs errs s Hrtc) as [[Hex _] _].
  by apply step_progress.
Qed.

End Threads.

(** One thread run through the steps does what the function [createRepo]
    does. *)
Lemma createRepo_run (o : git.Oracle) (repoPath : gostring) (w : git.World) :
  rtc (git.step repoPath)
    (git.mkSystem w None [git.AtLock])
    (git.mkSystem (snd (git.createRepo o repoPath w)) None
       [git.Finished (fst (git.createRepo o repoPath w))]).
Proof.
  eapply rtc_l; [apply (git.step_Lock repoPath 0); reflexivity |].
  eapply rtc_l; [apply (git.step_Stat repoPath 0); reflexivity |].
  unfold git.createRepo. cbn [git.move git.world git.createLock git.threads].
  destruct (git.Stat w repoPath) eqn:Hs; cbn [git.afterStat fst snd].
  - eapply rtc_l; [eapply (git.step_Unlock repoPath 0); reflexivity |].
    apply rtc_refl.
  - eapply rtc_l; [eapply (git.step_Unlock repoPath 0); reflexivity |].
    apply rtc_refl.
  - eapply rtc_l; [eapply (git.step_MkdirAll repoPath 0 _ o); reflexivity |].
    cbn [git.move git.world git.createLock git.threads].
    destruct (git.MkdirAll o repoPath w) as [[e |] w1];
      cbn [git.afterCall fst snd].
    + eapply rtc_l; [eapply (git.step_Unlock repoPath 0); reflexivity |].
      apply rtc_refl.
    + eapply rtc_l; [eapply (git.step_GitInit repoPath 0 _ o); reflexivity |].
      cbn [git.move git.world git.createLock git.threads].
      destruct (git.gitInitBare o repoPath w1) as [[e |] w2];
        cbn [git.afterCall fst snd];
        (eapply rtc_l; [eapply (git.step_Unlock repoPath 0); reflexivity |]);
        apply rtc_refl.
  - eapply rtc_l; [eapply (git.step_Unlock repoPath 0); reflexivity |].
    apply rtc_refl.
Qed.

(** C10, as the code has it.  When [n] threads call [createRepo] with one
    path, in every state they can reach at most one thread is between
    [Lock] and [Unlock], and [git init --bare] has been run at most once.
    It has been run exactly once when all threads have returned, provided
    there is a thread, the path did not exist beforehand and no creation of
    the directory failed. *)
Theorem createRepo_concurrent
  (repoPath : gostring) (n : nat) (fs : gmap gostring git.node)
  (errs : gmap gostring gostring) (s : git.System) :
  rtc (git.step repoPath) (git.start n fs errs) s ->
  (forall i j p q,
     git.threads s !! i = Some p -> git.threads s !! j = Some q ->
     git.holding p = true -> git.holding q = true -> i = j)
  /\ git.gitInits repoPath (git.log (git.world s)) <= 1
  /\ (0 < n ->
      git.Stat (git.world (git.start n fs errs)) repoPath = git.StatNotExist ->
      Forall (fun p => git.finished p = true) (git.threads s) ->
      git.EvMkdirAll repoPath false ∉ git.log (git.world s) ->
      git.gitInits repoPath (git.log (git.world s)) = 1).
Proof.
  intros Hrtc.
  destruct (reachable_invariant repoPath n fs errs s Hrtc)
    as ((Hex & Hinf & Hle & Hone) & Hlen & Hpend).
  split; [| split; [done |]].
  - intros i j p q Hi Hj Hp Hq.
    pose proof (proj1 Hex i p Hi Hp) as H1.
    pose proof (proj1 Hex j q Hj Hq) as H2.
    rewrite H1 in H2. by injection H2.
  - intros Hn Hs Hfin Hfail.
    destruct (decide (git.gitInits repoPath (git.log (git.world s)) = 0))
      as [H0 | H0]; [| lia].
    destruct (Hpend Hs H0 Hfail) as [Hall _].
    destruct (lookup_lt_is_Some_2 (git.threads s) 0 ltac:(lia)) as [p Hp].
    pose proof (Hall 0 p Hp) as Hu.
    rewrite Forall_lookup in Hfin. pose proof (Hfin 0 p Hp) as Hf.
    destruct p; discriminate.
Qed.

Lemma createRepo_concurrent_witness :
  exists s,
    rtc (git.step (str "/r.git")) (git.start 2 ∅ ∅) s
    /\ Forall (fun p => git.finished p = true) (git.threads s)
    /\ git.gitInits (str "/r.git") (git.log (git.world s)) = 1.
Proof.
  pose (o := git.mkOracle None None None None None None [] None [] []).
  assert (exists s,
            rtc (git.step (str "/r.git")) (git.start 2 ∅ ∅) s
            /\ Forall (fun p => git.finished p = true) (git.threads s)
            /\ git.EvMkdirAll (str "/r.git") false ∉ git.log (git.world s))
    as (s & Hrtc & Hfin & Hfail).
  { eexists. split; [| split].
    - eapply rtc_l; [apply (git.step_Lock _ 1); reflexivity |].
      eapply rtc_l; [apply (git.step_Stat _ 1); reflexivity |].
      eapply rtc_l; [apply (git.step_MkdirAll _ 1 _ o); reflexivity |].
      eapply rtc_l; [apply (git.step_GitInit _ 1 _ o); reflexivity |].
      eapply rtc_l;
        [apply (git.step_Unlock _ 1 _ (Ok true)); reflexivity |].
      eapply rtc_l; [apply (git.step_Lock _ 0); reflexivity |].
      eapply rtc_l; [apply (git.step_Stat _ 0); reflexivity |].
      eapply rtc_l;
        [apply (git.step_Unlock _ 0 _ (Ok false)); reflexivity |].
      apply rtc_refl.
    - vm_compute. repeat constructor.
    - vm_compute. intros H.
      repeat (apply elem_of_cons in H as [H | H]; [discriminate H |]).
      by apply elem_of_nil in H. }
  exists s. split; [done |]. split; [done |].
  apply (createRepo_concurrent (str "/r.git") 2 ∅ ∅ s Hrtc);
    [lia | reflexivity | done | done].
Defined.

(** C10 as the spec words it fails when the repository is already there:
    two threads call [createRepo] on an existing directory, both return,
    and [git init --bare] was not run at all. *)
Lemma createRepo_concurrent_no_init :
  exists s,
    rtc (git.step (str "/r.git"))
      (git.start 2 {[ str "/r.git" := git.Dir ]} ∅) s
    /\ git.threads s = [git.Finished (Ok false); git.Finished (Ok false)]
    /\ git.gitInits (str "/r.git") (git.log (git.world s)) = 0.
Proof.
  eexists. split; [| split].
  - eapply rtc_l; [apply (git.step_Lock _ 0); reflexivity |].
    eapply rtc_l; [apply (git.step_Stat _ 0); reflexivity |].
    eapply rtc_l; [apply (git.step_Unlock _ 0 _ (Ok false)); reflexivity |].
    eapply rtc_l; [apply (git.step_Lock _ 1); reflexivity |].
    eapply rtc_l; [apply (git.step_Stat _ 1); reflexivity |].
    eapply rtc_l; [apply (git.step_Unlock _ 1 _ (Ok false)); reflexivity |].
    apply rtc_refl.
  - reflexivity.
  - reflexivity.
Qed.

(** ** [Fingerprint] *)

Section FingerprintFacts.
Import sshd fingerprint.

Lemma unhex_hexdigit_hi (v : byte) :
  unhex (hexdigit (N.shiftr (Byte.to_N v) 4)) = N.shiftr (Byte.to_N v) 4.
Proof. destruct v; vm_compute; reflexivity. Qed.

Lemma unhex_hexdigit_lo (v : byte) :
  unhex (hexdigit (N.land (Byte.to_N v) 15)) = N.land (Byte.to_N v) 15.
Proof. destruct v; vm_compute; reflexivity. Qed.

Lemma byte_of_nibbles (v : byte) :
  Byte.of_N (N.shiftr (Byte.to_N v) 4 * 16 + N.land (Byte.to_N v) 15)
  = Some v.
Proof. destruct v; vm_compute; reflexivity. Qed.

(** The two digits of a byte determine it. *)
Lemma hexpair_inj (a b : byte) : hexpair a = hexpair b -> a = b.
Proof.
  unfold hexpair. intros H. injection H as Hhi Hlo.
  apply (f_equal unhex) in Hhi, Hlo.
  rewrite !unhex_hexdigit_hi in Hhi. rewrite !unhex_hexdigit_lo in Hlo.
  pose proof (byte_of_nibbles a) as Ha. rewrite Hhi, Hlo, byte_of_nibbles in Ha.
  by injection Ha.
Qed.

Lemma sixteen (A : Type) (l : list A) :
  length l = 16 ->
  exists a0 a1 a2 a3 a4 a5 a6 a7 a8 a9 a10 a11 a12 a13 a14 a15,
    l = [a0; a1; a2; a3; a4; a5; a6; a7; a8; a9; a10; a11; a12; a13; a14; a15].
Proof.
  intros H.
  do 16 (destruct l as [|? l]; [discriminate H |]).
  destruct l; [| discriminate H].
  by eexists _, _, _, _, _, _, _, _, _, _, _, _, _, _, _, _.
Qed.

(** For a hash of 16 bytes the loop fills its buffer exactly. *)
Lemma colonNotation_16 (hash : list byte) :
  length hash = 16 ->
  colonNotation hash = Returns (strings.Join (map hexpair hash) (str ":")).
Proof.
  intros H.
  destruct (sixteen _ hash H)
    as (a0 & a1 & a2 & a3 & a4 & a5 & a6 & a7 & a8 & a9 & a10 & a11 & a12
        & a13 & a14 & a15 & ->).
  reflexivity.
Qed.

Lemma Join_hexpairs_length (hash : list byte) :
  hash <> [] ->
  length (strings.Join (map hexpair hash) (str ":")) = 3 * length hash - 1.
Proof.
  induction hash as [|a [|b hash] IH]; intros Hne; [done | reflexivity |].
  change (strings.Join (map hexpair (a :: b :: hash)) (str ":"))
    with (hexpair a ++ str ":"
          ++ strings.Join (map hexpair (b :: hash)) (str ":")).
  rewrite !length_app, IH by done. simpl. lia.
Qed.

Lemma Join_hexpairs_inj (h1 : list byte) : forall h2,
  strings.Join (map hexpair h1) (str ":")
  = strings.Join (map hexpair h2) (str ":") ->
  length h1 = length h2 ->
  h1 = h2.
Proof.
  induction h1 as [|a [|a' h1] IH]; intros [|b [|b' h2]] H Hlen;
    try discriminate Hlen; try done.
  - f_equal. apply hexpair_inj. exact H.
  - change (hexpair a ++ str ":"
            ++ strings.Join (map hexpair (a' :: h1)) (str ":")
            = hexpair b ++ str ":"
              ++ strings.Join (map hexpair (b' :: h2)) (str ":")) in H.
    apply app_inj_1 in H as [Hab H]; [| reflexivity].
    apply app_inv_head in H. apply hexpair_inj in Hab as ->.
    f_equal. apply IH; [done |]. simpl in Hlen. simpl. lia.
Qed.

End FingerprintFacts.

(** X1.  With an authorized key configured and a hash of 16 bytes,
    [Fingerprint] returns the 16 bytes as two lower-case hexadecimal digits
    each, separated by colons: 47 characters, the buffer of [len(buf)+15]
    bytes being filled exactly. *)
Theorem Fingerprint_colon_notation
  (parse : list byte -> option sshd.PublicKey)
  (md5Sum : list byte -> list byte)
  (files : gmap gostring (list byte)) (data : list byte)
  (key : sshd.PublicKey) :
  files !! sshd.authorizedKeyFile = Some data ->
  parse data = Some key ->
  length (md5Sum (sshd.Marshal key)) = 16 ->
  exists fp,
    fingerprint.Fingerprint parse md5Sum files = sshd.Returns fp
    /\ fp = strings.Join
              (map fingerprint.hexpair (md5Sum (sshd.Marshal key))) (str ":")
    /\ length fp = 47.
Proof.
  intros Hfile Hparse Hlen. eexists. split; [| split; [reflexivity |]].
  - unfold fingerprint.Fingerprint, sshd.ReadFile.
    rewrite Hfile, Hparse. by apply colonNotation_16.
  - rewrite Join_hexpairs_length, Hlen; [reflexivity |].
    intros H. rewrite H in Hlen. discriminate Hlen.
Qed.

Lemma Fingerprint_colon_notation_witness :
  fingerprint.Fingerprint
    (fun data => Some (sshd.mkPublicKey (str "ssh-rsa") data))
    (fun _ => replicate 15 Byte.x00 ++ [Byte.xff])
    {[ sshd.authorizedKeyFile := [Byte.x01] ]}
  = sshd.Returns
      (str "00:00:00:00:00:00:00:00:00:00:00:00:00:00:00:ff").
Proof.
  destruct (Fingerprint_colon_notation
              (fun data => Some (sshd.mkPublicKey (str "ssh-rsa") data))
              (fun _ => replicate 15 Byte.x00 ++ [Byte.xff])
              {[ sshd.authorizedKeyFile := [Byte.x01] ]} [Byte.x01]
              (sshd.mkPublicKey (str "ssh-rsa") [Byte.x01]))
    as (fp & Hfp & -> & _).
  - vm_compute. reflexivity.
  - reflexivity.
  - reflexivity.
  - exact Hfp.
Defined.

(** X2.  Two configured keys with the same fingerprint have the same hash:
    the colon notation loses nothing of a hash of 16 bytes. *)
Theorem Fingerprint_injective
  (parse : list byte -> option sshd.PublicKey)
  (md5Sum : list byte -> list byte)
  (files1 files2 : gmap gostring (list byte)) (data1 data2 : list byte)
  (key1 key2 : sshd.PublicKey) :
  (forall x, length (md5Sum x) = 16) ->
  files1 !! sshd.authorizedKeyFile = Some data1 ->
  files2 !! sshd.authorizedKeyFile = Some data2 ->
  parse data1 = Some key1 ->
  parse data2 = Some key2 ->
  fingerprint.Fingerprint parse md5Sum files1
  = fingerprint.Fingerprint parse md5Sum files2 ->
  md5Sum (sshd.Marshal key1) = md5Sum (sshd.Marshal key2).
Proof.
  intros Hlen Hf1 Hf2 Hp1 Hp2.
  unfold fingerprint.Fingerprint, sshd.ReadFile.
  rewrite Hf1, Hf2, Hp1, Hp2, !colonNotation_16 by apply Hlen.
  intros [= H]. apply Join_hexpairs_inj; [done |]. by rewrite !Hlen.
Qed.

Lemma Fingerprint_injective_witness :
  let parse := fun data => Some (sshd.mkPublicKey (str "ssh-rsa") data) in
  let md5Sum := fun x : list byte => firstn 16 (x ++ replicate 16 Byte.x00) in
  md5Sum [Byte.x01] = md5Sum [Byte.x01].
Proof.
  intros parse md5Sum.
  apply (Fingerprint_injective parse md5Sum
           {[ sshd.authorizedKeyFile := [Byte.x01] ]}
           {[ sshd.authorizedKeyFile := [Byte.x01] ]}
           [Byte.x01] [Byte.x01]
           (sshd.mkPublicKey (str "ssh-rsa") [Byte.x01])
           (sshd.mkPublicKey (str "ssh-rsa") [Byte.x01])).
  - intros x. unfold md5Sum. rewrite length_take, length_app, length_replicate.
    lia.
  - vm_compute. reflexivity.
  - vm_compute. reflexivity.
  - reflexivity.
  - reflexivity.
  - reflexivity.
Defined.

(** X3.  When the key file cannot be read (and the parser finds no key in
    the empty input), or its contents do not parse, [Fingerprint] calls
    [Marshal()] on the nil key and panics. *)
Theorem Fingerprint_panics_without_key
  (parse : list byte -> option sshd.PublicKey)
  (md5Sum : list byte -> list byte)
  (files : gmap gostring (list byte)) :
  (files !! sshd.authorizedKeyFile = None /\ parse [] = None)
  \/ (exists data,
        files !! sshd.authorizedKeyFile = Some data /\ parse data = None) ->
  fingerprint.Fingerprint parse md5Sum files = sshd.Panics.
Proof.
  unfold fingerprint.Fingerprint, sshd.ReadFile.
  intros [[Hfile Hparse] | (data & Hfile & Hparse)];
    rewrite Hfile, Hparse; reflexivity.
Qed.

Lemma Fingerprint_panics_without_key_witness :
  fingerprint.Fingerprint (fun _ => None) (fun x => x) ∅ = sshd.Panics.
Proof.
  apply Fingerprint_panics_without_key. left. split; reflexivity.
Defined.

(** ** [checkIfAllowed] *)

(** X4.  [checkIfAllowed] answers true exactly for the applications of the
    list. *)
Theorem checkIfAllowed_elem (app : gostring) (validApps : list gostring) :
  allowed.checkIfAllowed app validApps = true <-> app ∈ validApps.
Proof.
  induction validApps as [|v l IH]; simpl.
  - split; [discriminate | by intros H%elem_of_nil].
  - rewrite elem_of_cons. case_bool_decide as Hv.
    + split; [by left | done].
    + rewrite IH. split; [by right | intros [-> | H]; done].
Qed.

(** ** The helpers of the tests *)

Section TestHelpers.
Import sshd k8s_util_test.

Lemma firstValue_Some env key v :
  firstValue env key = Some v
  <-> exists before e after,
        env = before ++ e :: after
        /\ Name e = key /\ Value e = v
        /\ Forall (fun x => Name x <> key) before.
Proof.
  induction env as [|x env IH]; simpl.
  - split; [discriminate |]. intros (b & e & a & H & _). by destruct b.
  - case_bool_decide as Hx.
    + split.
      * intros [= <-]. exists [], x, env. by repeat split.
      * intros (b & e & a & H & Hn & Hv & Hb). destruct b as [|y b].
        -- injection H as -> _. by rewrite Hv.
        -- injection H as -> _. apply Forall_cons in Hb as [Hy _]. done.
    + rewrite IH. split.
      * intros (b & e & a & -> & Hn & Hv & Hb).
        exists (x :: b), e, a. repeat split; try done. by constructor.
      * intros (b & e & a & H & Hn & Hv & Hb). destruct b as [|y b].
        -- injection H as -> _. done.
        -- injection H as -> ->. apply Forall_cons in Hb as [_ Hb].
           by exists b, e, a.
Qed.

Lemma firstValue_None env key :
  firstValue env key = None <-> Forall (fun x => Name x <> key) env.
Proof.
  induction env as [|x env IH]; simpl.
  - split; [constructor | done].
  - case_bool_decide as Hx.
    + split; [discriminate |]. intros [H _]%Forall_cons. done.
    + rewrite IH, Forall_cons. intuition.
Qed.

End TestHelpers.

(** X5.  On a pod with a container, [envValueFromKey] returns the value of
    the first variable of the first container that has the name, and the
    error [no key with name <key> found in pod env] exactly when no
    variable has it; on a pod without container it panics. *)
Theorem envValueFromKey_first
  (pod : k8s_util_test.Pod) (key : gostring) :
  (k8s_util_test.Containers pod = [] ->
   k8s_util_test.envValueFromKey pod key = sshd.Panics)
  /\ forall c cs,
       k8s_util_test.Containers pod = c :: cs ->
       (forall v,
          k8s_util_test.envValueFromKey pod key = sshd.Returns (Ok v)
          <-> exists before e after,
                k8s_util_test.Env c = before ++ e :: after
                /\ k8s_util_test.Name e = key
                /\ k8s_util_test.Value e = v
                /\ Forall (fun x => k8s_util_test.Name x <> key) before)
       /\ (k8s_util_test.envValueFromKey pod key
           = sshd.Returns
               (Err (str "no key with name " ++ key
                     ++ str " found in pod env"))
           <-> Forall (fun x => k8s_util_test.Name x <> key)
                 (k8s_util_test.Env c)).
Proof.
  unfold k8s_util_test.envValueFromKey. split.
  - by intros ->.
  - intros c cs ->. split.
    + intros v. rewrite <- firstValue_Some.
      destruct (k8s_util_test.firstValue _ _); split; congruence.
    + rewrite <- firstValue_None.
      destruct (k8s_util_test.firstValue _ _); split; congruence.
Qed.

Lemma envValueFromKey_first_witness :
  k8s_util_test.envValueFromKey
    (k8s_util_test.mkPod
       [k8s_util_test.mkContainer
          [k8s_util_test.mkEnvVar (str "TAR_URL") (str "tar");
           k8s_util_test.mkEnvVar (str "TAR_URL") (str "other")]])
    (str "TAR_URL")
  = sshd.Returns (Ok (str "tar")).
Proof.
  eapply (envValueFromKey_first _ (str "TAR_URL")); [reflexivity |].
  exists [], (k8s_util_test.mkEnvVar (str "TAR_URL") (str "tar")),
    [k8s_util_test.mkEnvVar (str "TAR_URL") (str "other")].
  repeat split. constructor.
Defined.

(** X6.  [checkForEnv] compares the value with itself: on a pod with a
    container it reports nothing when a variable has the name, whatever its
    value and the value expected, and reports only the missing name when
    none has it. *)
Theorem checkForEnv_ignores_expected
  (reported : list gostring) (pod : k8s_util_test.Pod)
  (c : k8s_util_test.Container) (cs : list k8s_util_test.Container)
  (key expVal : gostring) :
  k8s_util_test.Containers pod = c :: cs ->
  ((exists e, e ∈ k8s_util_test.Env c /\ k8s_util_test.Name e = key) ->
   k8s_util_test.checkForEnv reported pod key expVal
   = sshd.Returns reported)
  /\ (Forall (fun x => k8s_util_test.Name x <> key) (k8s_util_test.Env c) ->
      k8s_util_test.checkForEnv reported pod key expVal
      = sshd.Returns
          (reported
           ++ [str "no key with name " ++ key ++ str " found in pod env"])).
Proof.
  intros Hpod.
  unfold k8s_util_test.checkForEnv, k8s_util_test.envValueFromKey.
  rewrite Hpod. split.
  - intros (e & He & Hn).
    destruct (k8s_util_test.firstValue (k8s_util_test.Env c) key) eqn:Hf.
    + by rewrite bool_decide_eq_true_2.
    + apply firstValue_None in Hf. rewrite Forall_forall in Hf.
      by destruct (Hf e He).
  - intros Hnone. apply firstValue_None in Hnone. rewrite Hnone.
    by rewrite bool_decide_eq_true_2.
Qed.

Lemma checkForEnv_ignores_expected_witness :
  k8s_util_test.checkForEnv []
    (k8s_util_test.mkPod
       [k8s_util_test.mkContainer
          [k8s_util_test.mkEnvVar (str "TAR_URL") (str "wrong")]])
    (str "TAR_URL") (str "tar")
  = sshd.Returns [].
Proof.
  eapply (checkForEnv_ignores_expected [] _ _ [] (str "TAR_URL") (str "tar"));
    [reflexivity |].
  exists (k8s_util_test.mkEnvVar (str "TAR_URL") (str "wrong")).
  split; [apply list_elem_of_here | reflexivity].
Defined.

(** ** More on [createRepo] *)

Section CreateRepoMore.
Import git.
Implicit Types w : World.
Implicit Types o : Oracle.
Implicit Types repoPath : gostring.







End CreateRepoMore.







(** ** More on [Receive] *)

Section ReceiveMore.
Import git.
Variable filepathJoin : list gostring -> gostring.
Implicit Types w : World.
Implicit Types o : Oracle.





End ReceiveMore.










(** ** [Run] *)

Section RunFacts.
Import run.
Variable k : Collaborators.
Variable conf : Config.

Lemma scan_pass n line rest :
  passes k conf n line ->
  scan k conf n (line :: rest)
  = (fst (scan k conf (S n) rest),
     lineCalls conf line ++ snd (scan k conf (S n) rest)).
Proof.
  intros (o & nr & r & Hl & Hr & Hb). cbn [scan]. unfold lineCalls, callsFor.
  rewrite Hl, Hr.
  destruct (strings.HasPrefix (SSHOriginalCommand conf)
              (str "git-receive-pack")).
  - rewrite Hb by done. by destruct (scan k conf (S n) rest).
  - by destruct (scan k conf (S n) rest).
Qed.

(** The lines that go through are passed over, leaving their calls. *)
Lemma scan_app good : forall n rest,
  (forall i line, good !! i = Some line -> passes k conf (n + i) line) ->
  scan k conf n (good ++ rest)
  = (fst (scan k conf (n + length good) rest),
     flat_map (lineCalls conf) good
     ++ snd (scan k conf (n + length good) rest)).
Proof.
  induction good as [|line good IH]; intros n rest Hgood.
  - simpl. rewrite Nat.add_0_r. by destruct (scan k conf n rest).
  - cbn [app]. rewrite scan_pass.
    2:{ specialize (Hgood 0 line eq_refl). by rewrite Nat.add_0_r in Hgood. }
    rewrite IH.
    2:{ intros i l Hi. specialize (Hgood (S i) l Hi).
        by rewrite Nat.add_succ_r in Hgood. }
    cbn [fst snd flat_map length]. rewrite Nat.add_succ_r.
    by rewrite <- app_assoc.
Qed.

Lemma scan_None lines : forall n,
  fst (scan k conf n lines) = None
  <-> (forall i line, lines !! i = Some line -> passes k conf (n + i) line)
      /\ scannerErr k = None.
Proof.
  induction lines as [|line lines IH]; intros n.
  - simpl. split; [| by intros [_ H]].
    intros H. split; [| done]. intros i l Hi. discriminate Hi.
  - split.
    + intros H. cbn [scan] in H.
      destruct (gitreceive.readLine line) as [[[o nr] r] | e] eqn:Hl;
        [| discriminate H].
      destruct (receive k n nr) eqn:Hr; [discriminate H |].
      assert (passes k conf n line /\ fst (scan k conf (S n) lines) = None)
        as [Hp Hrest].
      { destruct (strings.HasPrefix (SSHOriginalCommand conf)
                    (str "git-receive-pack")) eqn:Hpre.
        - destruct (build k n nr) eqn:Hb; [discriminate H |].
          split; [by exists o, nr, r |].
          by destruct (scan k conf (S n) lines).
        - split; [exists o, nr, r; repeat split; congruence |].
          by destruct (scan k conf (S n) lines). }
      apply IH in Hrest as [Hall Hs]. split; [| done].
      intros [|i] l Hi.
      * injection Hi as <-. by rewrite Nat.add_0_r.
      * rewrite Nat.add_succ_r. by apply Hall.
    + intros [Hall Hs]. rewrite scan_pass.
      2:{ specialize (Hall 0 line eq_refl). by rewrite Nat.add_0_r in Hall. }
      cbn [fst]. apply IH. split; [| done].
      intros i l Hi. specialize (Hall (S i) l Hi).
      by rewrite Nat.add_succ_r in Hall.
Qed.

Lemma Run_ready lines : ready k conf -> Run k conf lines = scan k conf 0 lines.
Proof.
  intros (Hk & Hc & Hn). unfold Run.
  destruct (GetBuilderKey k); [| discriminate Hk]. by rewrite Hc, Hn.
Qed.

Lemma scan_no_build lines : forall n,
  strings.HasPrefix (SSHOriginalCommand conf) (str "git-receive-pack") = false ->
  Forall (fun c => isBuild c = false) (snd (scan k conf n lines)).
Proof.
  intros n Hpre. revert n.
  induction lines as [|line lines IH]; intros n; cbn [scan].
  - constructor.
  - destruct (gitreceive.readLine line) as [[[o nr] r] | e]; [| constructor].
    destruct (receive k n nr); [by repeat constructor |].
    rewrite Hpre. specialize (IH (S n)).
    destruct (scan k conf (S n) lines). by constructor.
Qed.

End RunFacts.

Lemma readLine_malformed (line : gostring) :
  length (strings.Split line (str " ")) <> 3 ->
  gitreceive.readLine line
  = Err (str "malformed line [" ++ line ++ str "]").
Proof.
  intros Hlen. unfold gitreceive.readLine.
  apply Nat.eqb_neq in Hlen. rewrite Hlen. reflexivity.
Qed.

(** X14.  [Run] stops at the first line that does not have three tokens:
    when the set-up succeeds and the lines before it go through, it returns
    [reading STDIN (malformed line [<line>])], has made the calls of the
    lines before, and makes none for the lines after. *)
Theorem Run_stops_at_malformed_line
  (k : run.Collaborators) (conf : run.Config)
  (good rest : list gostring) (bad : gostring) :
  run.ready k conf ->
  (forall i line, good !! i = Some line -> run.passes k conf i line) ->
  length (strings.Split bad (str " ")) <> 3 ->
  run.Run k conf (good ++ bad :: rest)
  = (Some (str "reading STDIN (malformed line [" ++ bad ++ str "])"),
     flat_map (run.lineCalls conf) good).
Proof.
  intros Hready Hgood Hbad.
  rewrite Run_ready by done. rewrite scan_app by done.
  cbn [run.scan plus].
  rewrite (readLine_malformed bad Hbad). cbn [fst snd]. rewrite app_nil_r. f_equal. f_equal.
  repeat (simpl; rewrite <- app_assoc). reflexivity.
Qed.

Lemma Run_stops_at_malformed_line_witness :
  let k := run.mkCollaborators (Ok (str "key")) (fun _ => None) None
             (fun _ _ => None) (fun _ _ => None) None in
  let conf := run.mkConfig (str "us-east-1") (str "git-receive-pack 'a'") in
  run.Run k conf ([str "a b refs/heads/master"] ++ [] :: [str "c d e"])
  = (Some (str "reading STDIN (malformed line [" ++ [] ++ str "])"),
     flat_map (run.lineCalls conf) [str "a b refs/heads/master"]).
Proof.
  intros k conf. apply Run_stops_at_malformed_line.
  - repeat split.
  - intros [|i] line Hi; [| destruct i; discriminate Hi].
    injection Hi as <-.
    exists (str "a"), (str "b"), (str "refs/heads/master"). repeat split.
  - vm_compute. discriminate.
Defined.

(** X15.  When [receive] fails for a line, [Run] returns its error as it
    is, without calling [build] for the line; when [build] fails, [Run]
    returns its error as it is.  In both cases the lines after are not
    read. *)
Theorem Run_stops_at_failed_call
  (k : run.Collaborators) (conf : run.Config)
  (good rest : list gostring) (line oldRev newRev refName e : gostring) :
  run.ready k conf ->
  (forall i l, good !! i = Some l -> run.passes k conf i l) ->
  gitreceive.readLine line = Ok (oldRev, newRev, refName) ->
  (run.receive k (length good) newRev = Some e ->
   run.Run k conf (good ++ line :: rest)
   = (Some e,
      flat_map (run.lineCalls conf) good ++ [run.CallReceive newRev]))
  /\ (run.receive k (length good) newRev = None ->
      strings.HasPrefix (run.SSHOriginalCommand conf) (str "git-receive-pack")
      = true ->
      run.build k (length good) newRev = Some e ->
      run.Run k conf (good ++ line :: rest)
      = (Some e,
         flat_map (run.lineCalls conf) good
         ++ [run.CallReceive newRev; run.CallBuild newRev])).
Proof.
  intros Hready Hgood Hline.
  rewrite Run_ready by done. rewrite scan_app by done.
  cbn [run.scan plus]. rewrite Hline. split.
  - by intros ->.
  - intros -> -> ->. reflexivity.
Qed.

Lemma Run_stops_at_failed_call_witness :
  let k := run.mkCollaborators (Ok (str "key")) (fun _ => None) None
             (fun _ _ => Some (str "upload failed")) (fun _ _ => None)
             None in
  let conf := run.mkConfig (str "us-east-1") (str "git-receive-pack 'a'") in
  run.Run k conf ([] ++ str "a b c" :: [str "d e f"])
  = (Some (str "upload failed"), [] ++ [run.CallReceive (str "b")]).
Proof.
  intros k conf.
  apply (Run_stops_at_failed_call k conf [] [str "d e f"] (str "a b c")
           (str "a") (str "b") (str "c") (str "upload failed")).
  - repeat split.
  - intros i l Hi. discriminate Hi.
  - reflexivity.
  - reflexivity.
Defined.

(** X16.  [Run] returns nil exactly when the set-up succeeds, every line
    goes through and the scanner ends without error; the calls made are
    then those of all the lines, in their order: [receive] for the new
    revision of each, followed by [build] for it when the command begins
    with [git-receive-pack]. *)
Theorem Run_succeeds_iff
  (k : run.Collaborators) (conf : run.Config) (lines : list gostring) :
  (fst (run.Run k conf lines) = None
   <-> run.ready k conf
       /\ (forall i line, lines !! i = Some line -> run.passes k conf i line)
       /\ run.scannerErr k = None)
  /\ (fst (run.Run k conf lines) = None ->
      snd (run.Run k conf lines) = flat_map (run.lineCalls conf) lines).
Proof.
  assert (fst (run.Run k conf lines) = None
          <-> run.ready k conf
              /\ (forall i line,
                    lines !! i = Some line -> run.passes k conf i line)
              /\ run.scannerErr k = None) as Hiff.
  { split.
    - intros H. unfold run.Run in H.
      destruct (run.GetBuilderKey k) eqn:Hk; [| discriminate H].
      destruct (run.GetClient k (run.StorageRegion conf)) eqn:Hc;
        [discriminate H |].
      destruct (run.NewInCluster k) eqn:Hn; [discriminate H |].
      apply scan_None in H as [Hall Hs].
      split; [| done]. unfold run.ready. by rewrite Hk.
    - intros (Hready & Hall & Hs). rewrite Run_ready by done.
      by apply scan_None. }
  split; [exact Hiff |].
  intros H. apply Hiff in H as (Hready & Hall & Hs).
  rewrite Run_ready by done.
  rewrite <- (app_nil_r lines) at 1. rewrite scan_app by done.
  cbn [run.scan snd]. by rewrite app_nil_r.
Qed.

(** X17.  When the original command does not begin with
    [git-receive-pack], [Run] never calls [build]. *)
Theorem Run_builds_only_receive_pack
  (k : run.Collaborators) (conf : run.Config) (lines : list gostring) :
  strings.HasPrefix (run.SSHOriginalCommand conf) (str "git-receive-pack")
  = false ->
  Forall (fun c => run.isBuild c = false) (snd (run.Run k conf lines)).
Proof.
  intros Hpre. unfold run.Run.
  destruct (run.GetBuilderKey k); [| constructor].
  destruct (run.GetClient k (run.StorageRegion conf)); [constructor |].
  destruct (run.NewInCluster k); [constructor |].
  by apply scan_no_build.
Qed.

Lemma Run_builds_only_receive_pack_witness :
  Forall (fun c => run.isBuild c = false)
    (snd (run.Run
            (run.mkCollaborators (Ok (str "key")) (fun _ => None) None
               (fun _ _ => None) (fun _ _ => None) None)
            (run.mkConfig (str "us-east-1") (str "git-upload-pack 'a'"))
            [str "a b c"])).
Proof.
  apply Run_builds_only_receive_pack. reflexivity.
Defined.

Lemma Run_succeeds_iff_witness :
  let k := run.mkCollaborators (Ok (str "key")) (fun _ => None) None
             (fun _ _ => None) (fun _ _ => None) None in
  let conf := run.mkConfig (str "us-east-1") (str "git-receive-pack 'a'") in
  snd (run.Run k conf [str "a b c"])
  = flat_map (run.lineCalls conf) [str "a b c"].
Proof.
  intros k conf. apply (Run_succeeds_iff k conf [str "a b c"]). reflexivity.
Defined.

(** ** More on the storage keys *)

Section StorageMore.
Import storage.

Lemma last_char_differs (x y : gostring) (a b : ascii) :
  a <> b -> x ++ [a] <> y ++ [b].
Proof. intros Hab H. apply app_inj_tail in H as [_ H]. done. Qed.

End StorageMore.

(** X18.  The three kinds of location never meet: for any two invocations
    of [NewSlugBuilderInfo], in any environments, a tar key is no push key
    and no slug key, a push key is no slug key, and the same holds of the
    URLs. *)
Theorem NewSlugBuilderInfo_kinds_apart
  (env1 env2 : gmap gostring gostring) (app1 app2 slug1 slug2 : gostring)
  (sha1 sha2 : gitsha.SHA) :
  let i1 := storage.NewSlugBuilderInfo env1 app1 slug1 sha1 in
  let i2 := storage.NewSlugBuilderInfo env2 app2 slug2 sha2 in
  storage.tarKey i1 <> storage.pushKey i2
  /\ storage.tarKey i1 <> storage.slugKey i2
  /\ storage.pushKey i1 <> storage.slugKey i2
  /\ storage.tarURL i1 <> storage.pushURL i2
  /\ storage.tarURL i1 <> storage.slugURL i2
  /\ storage.pushURL i1 <> storage.slugURL i2.
Proof.
  intros i1 i2. unfold i1, i2. rewrite !NewSlugBuilderInfo_fields.
  cbn [storage.pushKey storage.pushURL storage.slugKey storage.slugURL
       storage.tarKey storage.tarURL].
  change (str "/tar") with (str "/ta" ++ ["r"%char]).
  change (str "/push") with (str "/pus" ++ ["h"%char]).
  change (str "/slug") with (str "/slu" ++ ["g"%char]).
  repeat split; rewrite !app_assoc; apply last_char_differs; discriminate.
Qed.

(** ** More on [cleanRepoName] *)

(** X19.  For a name without single quote that [cleanRepoName] accepts,
    the name returned is a part of the name given, which is it with at
    most a leading ["/"] and a trailing [".git"] around it, and it does not
    contain [".."]. *)
Theorem cleanRepoName_plain (name r : gostring) :
  git.cleanRepoName name = Ok r ->
  ("'"%char) ∉ name ->
  (exists pre post,
     name = pre ++ r ++ post
     /\ pre ∈ [ []; str "/" ] /\ post ∈ [ []; str ".git" ])
  /\ strings.Contains r (str "..") = false.
Proof.
  intros Hr Hq. apply cleanRepoName_Ok in Hr as (_ & Hc & ->).
  rewrite ReplaceAll_quote, (filter_quote_id name Hq).
  assert (exists pre post,
            name = pre ++ trimmed name ++ post
            /\ pre ∈ [ []; str "/" ] /\ post ∈ [ []; str ".git" ])
    as (pre & post & Hname & Hpre & Hpost).
  { unfold trimmed.
    destruct (TrimSuffix_cases name (str ".git")) as [[_ G] | [_ G]];
      destruct (TrimPrefix_cases
                  (strings.TrimSuffix name (str ".git")) (str "/"))
        as [[_ H] | [_ H]].
    - exists (str "/"), (str ".git"). split; [| set_solver].
      rewrite G at 1. rewrite H at 1. by rewrite <- app_assoc.
    - exists [], (str ".git"). split; [| set_solver].
      rewrite G at 1. by rewrite H.
    - exists (str "/"), []. split; [| set_solver].
      rewrite app_nil_r. rewrite <- G at 1. exact H.
    - exists [], []. split; [| set_solver].
      rewrite app_nil_r. rewrite H. by rewrite G. }
  split; [by exists pre, post |].
  apply Contains_false. intros (u & v & Hr).
  apply Contains_false in Hc. apply Hc.
  exists (pre ++ u), (v ++ post). rewrite Hname, Hr.
  by rewrite <- !app_assoc.
Qed.

Lemma cleanRepoName_plain_witness :
  strings.Contains (str "demo") (str "..") = false.
Proof.
  apply (cleanRepoName_plain (str "/demo.git") (str "demo")).
  - reflexivity.
  - intros H. repeat (apply elem_of_cons in H as [H | H]; [discriminate H |]).
    by apply elem_of_nil in H.
Defined.

(** ** What the threads of [createRepo] are told *)

Section Creators.
Import git.
Variable repoPath : gostring.
Implicit Types s : System.
Implicit Types p q : pc.

Lemma creators_move s i p q w l :
  threads s !! i = Some p ->
  creators (move i q w l s) + created p = creators s + created q.
Proof. intros Hi. unfold creators. cbn [move threads]. by apply list_sum_insert. Qed.

Lemma created_afterStat r : created (afterStat r) = 0.
Proof. by destruct r. Qed.

Lemma failed_afterStat r :
  r = StatNotExist \/ r = StatDir -> failed (afterStat r) = false.
Proof. by intros [-> | ->]. Qed.

(** What the two calls under the lock answer and add to the trace. *)
Lemma MkdirAll_cases (o : Oracle) (w : World) :
  (fst (MkdirAll o repoPath w) = None
   /\ log (snd (MkdirAll o repoPath w)) = log w ++ [EvMkdirAll repoPath true])
  \/ (exists e, fst (MkdirAll o repoPath w) = Some e
      /\ snd (MkdirAll o repoPath w) = record (EvMkdirAll repoPath false) w).
Proof. unfold MkdirAll. destruct (mkdir_err o); [right | left]; eauto. Qed.

Lemma gitInitBare_cases (o : Oracle) (w : World) :
  (fst (gitInitBare o repoPath w) = None
   /\ log (snd (gitInitBare o repoPath w)) = log w ++ [EvGitInit repoPath true])
  \/ (exists e, fst (gitInitBare o repoPath w) = Some e
      /\ log (snd (gitInitBare o repoPath w))
         = log w ++ [EvGitInit repoPath false]).
Proof.
  unfold gitInitBare. destruct (git_init_err o); [right; eauto | left].
  split; [done |]. cbn [snd record log].
  by destruct (bareLayout_below repoPath w) as (_ & _ & ->).
Qed.

Lemma settled_step s s' :
  invariant repoPath s -> settled repoPath s -> step repoPath s s' ->
  settled repoPath s'.
Proof.
  intros (Hex & Hinf & Hle & Hone) [Hcr Hok] Hstep. unfold settled.
  destruct Hstep as [i s Hi Hl | i s Hi | i s o Hi | i s o Hi | i s r Hi];
    cbn [move world].
  - pose proof (creators_move s i _ AtStat (world s) (Some i) Hi) as Hsum.
    cbn [created] in Hsum.
    assert (creators (move i AtStat (world s) (Some i) s) = creators s)
      as -> by lia.
    done.
  - pose proof (creators_move s i _ (afterStat (Stat (world s) repoPath))
                  (world s) (createLock s) Hi) as Hsum.
    rewrite created_afterStat in Hsum. cbn [created] in Hsum.
    assert (creators (move i (afterStat (Stat (world s) repoPath)) (world s)
                        (createLock s) s) = creators s) as -> by lia.
    done.
  - pose proof (creators_move s i _
                  (afterCall (fst (MkdirAll o repoPath (world s))) AtGitInit)
                  (snd (MkdirAll o repoPath (world s))) (createLock s) Hi)
      as Hsum.
    assert (created (afterCall (fst (MkdirAll o repoPath (world s)))
                       AtGitInit) = 0) as Hc0
        by (by destruct (fst (MkdirAll o repoPath (world s)))).
    rewrite Hc0 in Hsum. cbn [created] in Hsum.
    assert (creators
              (move i
                 (afterCall (fst (MkdirAll o repoPath (world s))) AtGitInit)
                 (snd (MkdirAll o repoPath (world s))) (createLock s) s)
            = creators s) as -> by lia.
    rewrite MkdirAll_log, gitInits_app, gitInits_mkdir, Nat.add_0_r.
    split; [done |]. intros H1 Hnf. apply Hok; [done |].
    intros Hin. apply Hnf. apply elem_of_app. by left.
  - destruct (Hinf i _ Hi) as [_ H0].
    pose proof (creators_move s i _
                  (afterCall (fst (gitInitBare o repoPath (world s)))
                     (AtUnlock (Ok true)))
                  (snd (gitInitBare o repoPath (world s))) (createLock s) Hi)
      as Hsum.
    cbn [created] in Hsum.
    destruct (gitInitBare_cases o (world s)) as [[Hf Hlog] | (e & Hf & Hlog)];
      rewrite Hf in Hsum |- *; rewrite Hlog, gitInits_app, gitInits_one;
      cbn [afterCall created] in Hsum |- *.
    + split; [lia |]. intros _ _. lia.
    + split; [lia |]. intros _ Hnf. destruct Hnf.
      apply elem_of_app. right. apply list_elem_of_singleton. reflexivity.
  - pose proof (creators_move s i _ (Finished r) (world s) None Hi) as Hsum.
    assert (created (Finished r) = created (AtUnlock r)) as Hc by done.
    rewrite Hc in Hsum.
    assert (creators (move i (Finished r) (world s) None s) = creators s)
      as -> by lia.
    done.
Qed.

Lemma unspoilt_step s s' :
  invariant repoPath s -> unspoilt repoPath s -> step repoPath s s' ->
  unspoilt repoPath s'.
Proof.
  intros (Hex & Hinf & Hle & Hone) [Hst Hfail] Hstep. unfold unspoilt.
  destruct Hstep as [i s Hi Hl | i s Hi | i s o Hi | i s o Hi | i s r Hi];
    cbn [move world].
  - split; [done |]. intros j x Hj Hx.
    destruct (lookup_move _ _ _ _ _ _ _ _ Hi Hj) as [[_ ->] | [_ Hj']];
      [discriminate Hx | by eapply Hfail].
  - split; [done |]. intros j x Hj Hx.
    destruct (lookup_move _ _ _ _ _ _ _ _ Hi Hj) as [[_ ->] | [_ Hj']];
      [| by eapply Hfail].
    rewrite failed_afterStat in Hx by done. discriminate Hx.
  - destruct (Hinf i _ Hi) as [Hs _].
    destruct (MkdirAll_cases o (world s)) as [[Hf Hlog] | (e & Hf & Hw)].
    + split.
      { right. unfold MkdirAll in *. destruct (mkdir_err o) eqn:Ho;
          [discriminate Hf |].
        pose proof (MkdirAll_Stat o repoPath (world s) Ho Hs) as HS.
        unfold MkdirAll in HS. by rewrite Ho in HS. }
      intros j x Hj Hx. rewrite Hlog.
      destruct (lookup_move _ _ _ _ _ _ _ _ Hi Hj) as [[_ ->] | [_ Hj']].
      * rewrite Hf in Hx. discriminate Hx.
      * destruct (Hfail j x Hj' Hx) as [H | H]; [left | right];
          apply elem_of_app; by left.
    + rewrite Hw. split; [by left |].
      intros j x Hj Hx. cbn [record log].
      destruct (lookup_move _ _ _ _ _ _ _ _ Hi Hj) as [[_ ->] | [_ Hj']].
      * left. apply elem_of_app. right. apply list_elem_of_singleton.
        reflexivity.
      * destruct (Hfail j x Hj' Hx) as [H | H]; [left | right];
          apply elem_of_app; by left.
  - destruct (Hinf i _ Hi) as [Hs _].
    split; [right; by apply gitInitBare_Stat |].
    intros j x Hj Hx.
    destruct (gitInitBare_cases o (world s)) as [[Hf Hlog] | (e & Hf & Hlog)];
      rewrite Hlog;
      (destruct (lookup_move _ _ _ _ _ _ _ _ Hi Hj) as [[_ ->] | [_ Hj']];
       [| destruct (Hfail j x Hj' Hx) as [H | H]; [left | right];
          apply elem_of_app; by left]).
    + rewrite Hf in Hx. discriminate Hx.
    + right. apply elem_of_app. right. apply list_elem_of_singleton.
      reflexivity.
  - split; [done |]. intros j x Hj Hx.
    destruct (lookup_move _ _ _ _ _ _ _ _ Hi Hj) as [[_ ->] | [_ Hj']];
      [| by eapply Hfail].
    by apply (Hfail i (AtUnlock r) Hi).
Qed.

Lemma reachable_settled n fs errs s :
  rtc (step repoPath) (start n fs errs) s ->
  settled repoPath s
  /\ (Stat (world (start n fs errs)) repoPath = StatNotExist ->
      unspoilt repoPath s).
Proof.
  intros Hrtc.
  assert (invariant repoPath s /\ settled repoPath s
          /\ (Stat (world (start n fs errs)) repoPath = StatNotExist ->
              unspoilt repoPath s)) as (_ & H1 & H2); [| done].
  revert s Hrtc. apply rtc_ind_r.
  - split; [apply invariant_start |]. split; [| split].
    + split.
      * unfold creators. cbn [start threads].
        assert (list_sum (map created (replicate n AtLock)) = 0) as ->;
          [| lia].
        induction n as [|m IH]; [done | exact IH].
      * intros H. discriminate H.
    + by left.
    + intros i p Hi Hp. apply lookup_replicate in Hi as [-> _].
      discriminate Hp.
  - intros y z Hxy Hyz (Hinv & Hset & Huns). split; [| split].
    + by eapply invariant_step.
    + by eapply settled_step.
    + intros Hs. eapply unspoilt_step; eauto.
Qed.

Lemma sum_unique (f : pc -> nat) (l : list pc) : forall i j p q,
  list_sum (map f l) <= 1 ->
  l !! i = Some p -> l !! j = Some q -> f p = 1 -> f q = 1 -> i = j.
Proof.
  induction l as [|x l IH]; intros [|i] [|j] p q Hsum Hi Hj Hp Hq;
    try discriminate Hi; try discriminate Hj; simpl in *.
  - done.
  - injection Hi as ->.
    assert (f q <= list_sum (map f l)).
    { clear -Hj. revert j Hj. induction l as [|y l IH]; intros [|j] Hj;
        try discriminate Hj; simpl in *.
      - injection Hj as ->. lia.
      - specialize (IH j Hj). lia. }
    lia.
  - injection Hj as ->.
    assert (f p <= list_sum (map f l)).
    { clear -Hi. revert i Hi. induction l as [|y l IH]; intros [|i] Hi;
        try discriminate Hi; simpl in *.
      - injection Hi as ->. lia.
      - specialize (IH i Hi). lia. }
    lia.
  - f_equal. eapply (IH i j p q); eauto. lia.
Qed.

Lemma sum_exists (f : pc -> nat) (l : list pc) :
  list_sum (map f l) = 1 -> exists i p, l !! i = Some p /\ 0 < f p.
Proof.
  induction l as [|x l IH]; simpl; intros H; [discriminate H |].
  destruct (f x) eqn:Hx.
  - destruct (IH H) as (i & p & Hi & Hp). by exists (S i), p.
  - exists 0, x. split; [done | lia].
Qed.

End Creators.

(** X20.  However the threads that call [createRepo] on one path are
    interleaved, and whatever fails, at most one of them returns [true]. *)
Theorem createRepo_one_creator
  (repoPath : gostring) (n : nat) (fs : gmap gostring git.node)
  (errs : gmap gostring gostring) (s : git.System) (i j : nat) :
  rtc (git.step repoPath) (git.start n fs errs) s ->
  git.threads s !! i = Some (git.Finished (Ok true)) ->
  git.threads s !! j = Some (git.Finished (Ok true)) ->
  i = j.
Proof.
  intros Hrtc Hi Hj.
  destruct (reachable_invariant repoPath n fs errs s Hrtc)
    as ((_ & _ & Hle & _) & _ & _).
  destruct (reachable_settled repoPath n fs errs s Hrtc) as [[Hcr _] _].
  eapply (sum_unique git.created (git.threads s)); eauto.
  unfold git.creators in Hcr. lia.
Qed.

(** X21.  When the path is absent at the start and no call fails, once all
    threads have returned exactly one of them has returned [true], and
    every other one [false], none with an error. *)
Theorem createRepo_concurrent_results
  (repoPath : gostring) (n : nat) (fs : gmap gostring git.node)
  (errs : gmap gostring gostring) (s : git.System) :
  rtc (git.step repoPath) (git.start n fs errs) s ->
  0 < n ->
  git.Stat (git.world (git.start n fs errs)) repoPath = git.StatNotExist ->
  Forall (fun p => git.finished p = true) (git.threads s) ->
  git.EvMkdirAll repoPath false ∉ git.log (git.world s) ->
  git.EvGitInit repoPath false ∉ git.log (git.world s) ->
  exists i,
    git.threads s !! i = Some (git.Finished (Ok true))
    /\ forall j, j <> i -> j < n ->
                 git.threads s !! j = Some (git.Finished (Ok false)).
Proof.
  intros Hrtc Hn Hs Hfin Hnm Hng.
  destruct (reachable_invariant repoPath n fs errs s Hrtc)
    as ((Hex & Hinf & Hle & Hone) & Hlen & Hpend).
  destruct (reachable_settled repoPath n fs errs s Hrtc) as [[Hcr Hok] Huns].
  destruct (Huns Hs) as [_ Hfailed].
  rewrite Forall_lookup in Hfin.
  assert (git.gitInits repoPath (git.log (git.world s)) = 1) as H1.
  { destruct (decide (git.gitInits repoPath (git.log (git.world s)) = 0))
      as [H0 | H0]; [| lia].
    destruct (Hpend Hs H0 Hnm) as [Hall _].
    destruct (lookup_lt_is_Some_2 (git.threads s) 0 ltac:(lia)) as [p Hp].
    pose proof (Hall 0 p Hp) as Hu. pose proof (Hfin 0 p Hp) as Hf.
    destruct p; discriminate. }
  pose proof (Hok H1 Hng) as Hc1.
  destruct (sum_exists git.created (git.threads s) Hc1) as (i & p & Hi & Hp).
  assert (p = git.Finished (Ok true)) as ->.
  { pose proof (Hfin i p Hi) as Hf.
    destruct p as [| | | | r | r]; try discriminate Hf.
    destruct r as [[|] | e]; simpl in Hp; try lia. reflexivity. }
  exists i. split; [done |]. intros j Hne Hj.
  destruct (lookup_lt_is_Some_2 (git.threads s) j ltac:(lia)) as [q Hq].
  pose proof (Hfin j q Hq) as Hf.
  destruct q as [| | | | r | r]; try discriminate Hf.
  destruct r as [[|] | e].
  - destruct Hne.
    eapply (sum_unique git.created (git.threads s)); eauto.
    unfold git.creators in Hcr. lia.
  - done.
  - destruct (Hfailed j _ Hq eq_refl) as [H | H]; done.
Qed.

(** A run of two threads on a fresh path in which nothing fails. *)
Lemma two_threads_run :
  exists s,
    rtc (git.step (str "/r.git")) (git.start 2 ∅ ∅) s
    /\ git.threads s = [git.Finished (Ok false); git.Finished (Ok true)]
    /\ git.log (git.world s)
       = [git.EvMkdirAll (str "/r.git") true; git.EvGitInit (str "/r.git") true].
Proof.
  pose (o := git.mkOracle None None None None None None [] None [] []).
  eexists. split; [| split].
  - eapply rtc_l; [apply (git.step_Lock _ 1); reflexivity |].
    eapply rtc_l; [apply (git.step_Stat _ 1); reflexivity |].
    eapply rtc_l; [apply (git.step_MkdirAll _ 1 _ o); reflexivity |].
    eapply rtc_l; [apply (git.step_GitInit _ 1 _ o); reflexivity |].
    eapply rtc_l; [apply (git.step_Unlock _ 1 _ (Ok true)); reflexivity |].
    eapply rtc_l; [apply (git.step_Lock _ 0); reflexivity |].
    eapply rtc_l; [apply (git.step_Stat _ 0); reflexivity |].
    eapply rtc_l; [apply (git.step_Unlock _ 0 _ (Ok false)); reflexivity |].
    apply rtc_refl.
  - vm_compute. reflexivity.
  - vm_compute. reflexivity.
Qed.

Lemma createRepo_one_creator_witness :
  exists s,
    rtc (git.step (str "/r.git")) (git.start 2 ∅ ∅) s
    /\ git.threads s !! 1 = Some (git.Finished (Ok true))
    /\ 1 = 1.
Proof.
  destruct two_threads_run as (s & Hrtc & Hth & _).
  assert (git.threads s !! 1 = Some (git.Finished (Ok true))) as H1
    by (by rewrite Hth).
  exists s. split; [done |]. split; [done |].
  exact (createRepo_one_creator (str "/r.git") 2 ∅ ∅ s 1 1 Hrtc H1 H1).
Defined.

Lemma createRepo_concurrent_results_witness :
  exists s i,
    rtc (git.step (str "/r.git")) (git.start 2 ∅ ∅) s
    /\ git.threads s !! i = Some (git.Finished (Ok true))
    /\ forall j, j <> i -> j < 2 ->
                 git.threads s !! j = Some (git.Finished (Ok false)).
Proof.
  destruct two_threads_run as (s & Hrtc & Hth & Hlog).
  destruct (createRepo_concurrent_results (str "/r.git") 2 ∅ ∅ s Hrtc)
    as (i & Hi & Hothers).
  - lia.
  - reflexivity.
  - rewrite Hth. repeat constructor.
  - rewrite Hlog. intros H.
    repeat (apply elem_of_cons in H as [H | H]; [discriminate H |]).
    by apply elem_of_nil in H.
  - rewrite Hlog. intros H.
    repeat (apply elem_of_cons in H as [H | H]; [discriminate H |]).
    by apply elem_of_nil in H.
  - by exists s, i.
Defined.

(** ** More on [readLine] *)

Lemma split_length (s : gostring) : forall cur,
  length (strings.split_from [sp] 0 cur s)
  = S (length (filter (fun c => c = sp) s)).
Proof.
  induction s as [|x s IH]; intros cur; [done |].
  rewrite split_step, filter_cons. case_bool_decide as Hx.
  - rewrite decide_True by done. simpl. by rewrite IH.
  - rewrite decide_False by done. apply IH.
Qed.

(** X22.  [readLine] accepts a line exactly when the line holds two space
    characters, wherever they are: tokens may be empty. *)
Theorem readLine_two_spaces (line : gostring) :
  is_err (gitreceive.readLine line) = false
  <-> length (filter (fun c => c = sp) line) = 2.
Proof.
  unfold gitreceive.readLine.
  change (strings.Split line (str " ")) with (strings.split_from [sp] 0 [] line).
  rewrite split_length.
  destruct (S (length (filter (fun c => c = sp) line)) =? 3)%nat eqn:E; simpl.
  - apply Nat.eqb_eq in E. split; [lia | done].
  - apply Nat.eqb_neq in E. split; [discriminate | lia].
Qed.

(** ** The threads of [createRepo] return *)

(** X23.  The threads that call [createRepo] cannot block each other for
    ever: in every state they can reach, either all have returned or some
    thread can take a step; every step takes one call off the work that is
    left, which is at most five calls for each thread. *)
Theorem createRepo_threads_finish
  (repoPath : gostring) (n : nat) (fs : gmap gostring git.node)
  (errs : gmap gostring gostring) (s : git.System) :
  rtc (git.step repoPath) (git.start n fs errs) s ->
  (Forall (fun p => git.finished p = true) (git.threads s)
   \/ exists s', git.step repoPath s s')
  /\ (forall s', git.step repoPath s s' -> git.work s' < git.work s)
  /\ git.work s <= 5 * n.
Proof.
  intros Hrtc. split; [| split].
  - destruct (decide (Forall (fun p => git.finished p = true) (git.threads s)))
      as [Hall | Hnot]; [by left | right].
    apply not_Forall_Exists in Hnot; [| intros p; apply _].
    apply Exists_exists in Hnot as (p & Hp & Hf).
    apply list_elem_of_lookup in Hp as [i Hi].
    apply (reachable_progress repoPath n fs errs s i p Hrtc Hi).
    simpl in Hf. by destruct (git.finished p).
  - intros s'. apply step_decreases.
  - revert s Hrtc. apply rtc_ind_r.
    + unfold git.work. cbn [git.start git.threads].
      induction n as [|m IH]; [done |]. simpl in *. lia.
    + intros y z _ Hyz Hy. apply step_decreases in Hyz. lia.
Qed.

Lemma createRepo_threads_finish_witness :
  git.work (git.start 2 ∅ ∅) <= 5 * 2.
Proof.
  apply (createRepo_threads_finish (str "/r.git") 2 ∅ ∅ (git.start 2 ∅ ∅)).
  apply rtc_refl.
Defined.
